(** * bon_deno: the shell-call harness and the worker pool of [base.ts]

    A shallow embedding of
    - [deep_clone_and_sort], [stable_json_stringify], [is_equal], [assert],
      [assert.equal] and [ensure_error] of [base.ts];
    - [on_shell_call] of the shell-call module;
    - [execute_async] of [base.ts];
    - the array functions of [base.ts] ([first], [last], [take], [find],
      [partition], [unique], [group_by], ...), [once] and
      [get_environment], in the module [Base].

    What the code takes from the JavaScript engine (JSON.parse,
    JSON.stringify, String.prototype.localeCompare, Object.assign, string
    conversion, stack capture) is not part of the repository; it is gathered
    in the record [Platform] and every statement is made for an arbitrary
    platform. *)

From stdpp Require Import base option list strings pretty gmap.

Set Default Proof Using "Type".
Set Warnings "-register-all".
Open Scope string_scope.
Open Scope list_scope.
Open Scope Z_scope.
Open Scope nat_scope.

(** ** JavaScript values *)

(** The state of an instance of [Error]. *)
Record Error : Type := { message : string; stack : option string }.

(** The values the harness moves around ([something] in the source).
    [VObj] is a plain object given by its own enumerable properties in
    enumeration order; [VHook json] is an object that exposes a callable
    [toJSON] (a Date, a Map, a class instance) returning [json];
    [VError] is an instance of [Error]. *)
Inductive value : Type :=
| VUndefined
| VNull
| VBool (b : bool)
| VNum (n : Z)
| VStr (s : string)
| VArr (items : list value)
| VObj (fields : list (string * value))
| VHook (json : value)
| VError (e : Error).

Abbreviation something := value (only parsing).

(** A call either returns or throws a value. *)
Inductive completion (A : Type) : Type :=
| Normal (a : A)
| Throw (e : value).
Arguments Normal {A} a.
Arguments Throw {A} e.

#[global] Instance completion_ret : MRet completion := @Normal.
#[global] Instance completion_bind : MBind completion :=
  λ A B f m, match m with Normal a => f a | Throw e => Throw e end.
#[global] Instance completion_fmap : FMap completion :=
  λ A B f m, match m with Normal a => Normal (f a) | Throw e => Throw e end.

(** Evaluates the calls of a list from left to right, up to the first throw. *)
Fixpoint sequence {A} (l : list (completion A)) : completion (list A) :=
  match l with
  | [] => Normal []
  | c :: r => a ← c; r' ← sequence r; Normal (a :: r')
  end.

(** Same, for [key, call] entries. *)
Fixpoint sequence_entries {A} (l : list (string * completion A))
  : completion (list (string * A)) :=
  match l with
  | [] => Normal []
  | (k, c) :: r => a ← c; r' ← sequence_entries r; Normal ((k, a) :: r')
  end.

(** ** The engine *)

Record Platform : Type := {
  (** [JSON.parse(text)]: the decoded value, or a thrown SyntaxError. *)
  JSON_parse : string → completion value;
  (** [JSON.stringify(v, null, indent)] on a value without hooks. *)
  JSON_stringify : value → option nat → string;
  (** [a.localeCompare(b)]: negative, zero or positive. *)
  localeCompare : string → string → Z;
  (** [Object.assign({}, {[k1]: v1}, {[k2]: v2}, ...)] for the given
      single-entry objects, in this order. *)
  Object_assign : list (string * value) → value;
  (** ['' + v], the string conversion of a value. *)
  to_string : value → string;
  (** The stack the engine records in [new Error(message)]. *)
  capture_stack : string → option string;
}.

(** [new Error(message)] *)
Definition new_Error (P : Platform) (message : string) : Error :=
  {| message := message; stack := capture_stack P message |}.

(** ** Primitive operations of the language *)

(** [!!v] *)
Definition truthy (v : value) : bool :=
  match v with
  | VUndefined | VNull => false
  | VBool b => b
  | VNum n => negb (n =? 0)%Z
  | VStr s => negb (String.eqb s "")
  | VArr _ | VObj _ | VHook _ | VError _ => true
  end.

(** [typeof v == 'object'] *)
Definition typeof_object (v : value) : bool :=
  match v with
  | VNull | VArr _ | VObj _ | VHook _ | VError _ => true
  | VUndefined | VBool _ | VNum _ | VStr _ => false
  end.

(** [v instanceof Error], with the instance when it is one. *)
Definition instanceof_Error (v : value) : option Error :=
  match v with VError e => Some e | _ => None end.

(** [Array.isArray(v)] *)
Definition Array_isArray (v : value) : bool :=
  match v with VArr _ => true | _ => false end.

(** The elements of an array (nothing for another value). *)
Definition array_items (v : value) : list value :=
  match v with VArr items => items | _ => [] end.

(** The own property [k] of a plain object, [undefined] when absent. *)
Fixpoint own_property (fields : list (string * value)) (k : string) : value :=
  match fields with
  | [] => VUndefined
  | (k', v) :: r => if String.eqb k' k then v else own_property r k
  end.

(** [k in obj] for the own properties of an object. *)
Definition has_key {A} (k : string) (fields : list (string * A)) : bool :=
  existsb (λ e, String.eqb (fst e) k) fields.

Definition stack_value (stack : option string) : value :=
  match stack with Some s => VStr s | None => VUndefined end.

(** [v.k] for one of the names [before], [inputs], [after], which no
    built-in prototype defines: reading a property of [null] or
    [undefined] throws a TypeError, a primitive or an array has no such
    property. *)
Definition get_prop (P : Platform) (v : value) (k : string) : completion value :=
  match v with
  | VUndefined =>
      Throw (VError (new_Error P
        ("Cannot read properties of undefined (reading '" +:+ k +:+ "')")))
  | VNull =>
      Throw (VError (new_Error P
        ("Cannot read properties of null (reading '" +:+ k +:+ "')")))
  | VObj fields => Normal (own_property fields k)
  | _ => Normal VUndefined
  end.

(** ** Sorting entries by key *)

(** Puts [x] after the entries it is greater than. *)
Fixpoint insert_entry {A} (cmp : string → string → Z)
    (x : string * A) (l : list (string * A)) : list (string * A) :=
  match l with
  | [] => [x]
  | y :: r =>
      if (0 <? cmp (fst x) (fst y))%Z
      then y :: insert_entry cmp x r
      else x :: y :: r
  end.

(** [entries.sort(([key_a], [key_b]) => cmp(key_a, key_b))]: a stable sort. *)
Definition sort_entries {A} (cmp : string → string → Z)
    (l : list (string * A)) : list (string * A) :=
  foldr (insert_entry cmp) [] l.

(** ** deep_clone_and_sort, stable_json_stringify, is_equal *)

(** [Error.prototype.toJSON] *)
Definition Error_toJSON (e : Error) : value :=
  VObj [("message", VStr (message e)); ("stack", stack_value (stack e))].

(** The clone of each property is computed where the property stands;
    the calls are then put in sorted order and run in that order, as
    [.sort(...).map(...)] does. An [Error] is expanded by
    [Error_toJSON]; the two values of the result are primitives, which
    are their own clones. *)
Fixpoint deep_clone_and_sort (P : Platform) (obj : value) : completion value :=
  match obj with
  | VUndefined | VNull | VBool _ | VNum _ | VStr _ => Normal obj
  | VArr items => VArr <$> sequence (map (deep_clone_and_sort P) items)
  | VHook json => deep_clone_and_sort P json
  | VError e =>
      Normal (Object_assign P
        (sort_entries (localeCompare P)
           [("message", VStr (message e)); ("stack", stack_value (stack e))]))
  | VObj fields =>
      if has_key "toJSON" fields
      then Throw (VError (new_Error P "obj.toJSON is not a function"))
      else
        Object_assign P <$>
          sequence_entries
            (sort_entries (localeCompare P)
               ((fix clone_entries (l : list (string * value)) :=
                   match l with
                   | [] => []
                   | (k, v) :: r =>
                       (k, deep_clone_and_sort P v) :: clone_entries r
                   end) fields))
  end.

Definition stable_json_stringify (P : Platform) (obj : value) (pretty : bool)
  : completion string :=
  if pretty
  then (c ← deep_clone_and_sort P obj; Normal (JSON_stringify P c (Some 2)))
  else (c ← deep_clone_and_sort P obj; Normal (JSON_stringify P c None)).

Definition is_equal (P : Platform) (a b : value) : completion bool :=
  sa ← stable_json_stringify P a true;
  sb ← stable_json_stringify P b true;
  Normal (String.eqb sa sb).

(** ** assert, assert.equal *)

Definition assert (P : Platform) (condition : bool) (message : string)
  : completion unit :=
  let message_string :=
    if truthy (VStr message) then message else "Assertion error!" in
  if negb condition then Throw (VError (new_Error P message_string))
  else Normal tt.

Definition assert_equal (P : Platform) (a b : value) (message : string)
  : completion unit :=
  eq ← is_equal P a b;
  if negb eq then
    message_string ←
      (if truthy (VStr message) then Normal message
       else sa ← stable_json_stringify P a true;
            sb ← stable_json_stringify P b true;
            Normal ("Assertion error: " +:+ sa +:+ " != " +:+ sb));
    Throw (VError (new_Error P message_string))
  else Normal tt.

(** ** ensure_error *)

(** The call returns an [Error] and may write to its argument: the result
    is the returned error together with the argument as the call leaves
    it. In the first branch the returned error is the argument itself. *)
Definition ensure_error (P : Platform) (error : value) (default_message : string)
  : Error * value :=
  match (if truthy error && typeof_object error
         then instanceof_Error error else None) with
  | Some e =>
      let e' :=
        if negb (truthy (VStr (message e)))
        then {| message := default_message; stack := stack e |}
        else e in
      (e', VError e')
  | None =>
      (new_Error P
         (to_string P (if truthy error then error else VStr default_message)),
       error)
  end.

(** The default of the second parameter. *)
Definition default_message : string := "Unknown error".

(** [ensure_error(e).message] *)
Definition error_message (P : Platform) (e : value) : string :=
  message (fst (ensure_error P e default_message)).

(** ** Structural equality up to the order of object keys *)

(** [key_order_equiv a b]: same primitives, same array elements in the same
    order, the same key-value pairs in objects (in any order) at every
    depth; two objects with a hook are compared by what the hook returns. *)
Inductive key_order_equiv : value → value → Prop :=
| koe_undefined : key_order_equiv VUndefined VUndefined
| koe_null : key_order_equiv VNull VNull
| koe_bool b : key_order_equiv (VBool b) (VBool b)
| koe_num n : key_order_equiv (VNum n) (VNum n)
| koe_str s : key_order_equiv (VStr s) (VStr s)
| koe_arr l l' : koe_items l l' → key_order_equiv (VArr l) (VArr l')
| koe_obj f f' : koe_fields f f' → key_order_equiv (VObj f) (VObj f')
| koe_hook j j' : key_order_equiv j j' → key_order_equiv (VHook j) (VHook j')
| koe_error e : key_order_equiv (VError e) (VError e)
with koe_items : list value → list value → Prop :=
| koe_items_nil : koe_items [] []
| koe_items_cons v v' l l' :
    key_order_equiv v v' → koe_items l l' → koe_items (v :: l) (v' :: l')
with koe_fields : list (string * value) → list (string * value) → Prop :=
| koe_fields_nil : koe_fields [] []
| koe_fields_skip k v v' f f' :
    key_order_equiv v v' → koe_fields f f' →
    koe_fields ((k, v) :: f) ((k, v') :: f')
| koe_fields_swap k1 v1 k2 v2 f :
    koe_fields ((k1, v1) :: (k2, v2) :: f) ((k2, v2) :: (k1, v1) :: f)
| koe_fields_trans f g h : koe_fields f g → koe_fields g h → koe_fields f h.

Scheme koe_mut := Minimality for key_order_equiv Sort Prop
  with koe_items_mut := Minimality for koe_items Sort Prop
  with koe_fields_mut := Minimality for koe_fields Sort Prop.
Combined Scheme koe_mutind from koe_mut, koe_items_mut, koe_fields_mut.

(** The keys of a plain object are pairwise distinct, at every depth: what
    an object of the language is. *)
Fixpoint distinct_keys (v : value) : Prop :=
  match v with
  | VArr items =>
      (fix all (l : list value) : Prop :=
         match l with [] => True | x :: r => distinct_keys x ∧ all r end) items
  | VObj fields =>
      NoDup (map fst fields) ∧
      (fix all (l : list (string * value)) : Prop :=
         match l with [] => True | (_, x) :: r => distinct_keys x ∧ all r end) fields
  | VHook json => distinct_keys json
  | _ => True
  end.

(** No plain object has a property called [toJSON] (an object with a hook
    is a [VHook] or a [VError]), at every depth. *)
Fixpoint no_toJSON_property (v : value) : bool :=
  match v with
  | VArr items => forallb no_toJSON_property items
  | VObj fields =>
      negb (has_key "toJSON" fields) &&
      forallb (λ e, no_toJSON_property (snd e)) fields
  | VHook json => no_toJSON_property json
  | _ => true
  end.

(** What a collation gives: [0 < cmp a b] ("a goes after b") is a strict
    order on strings. Two different keys may compare as equal. *)
Record collation (cmp : string → string → Z) : Prop := {
  cmp_asym : ∀ a b, (0 < cmp a b)%Z → ¬ (0 < cmp b a)%Z;
  cmp_trans : ∀ a b c, (0 < cmp a b)%Z → (0 < cmp b c)%Z → (0 < cmp a c)%Z;
}.

(** The comparison puts any two different keys of the list in an order. *)
Definition keys_apart (cmp : string → string → Z) (keys : list string) : Prop :=
  ∀ a b, a ∈ keys → b ∈ keys → a ≠ b → (0 < cmp a b)%Z ∨ (0 < cmp b a)%Z.

(** The comparison tells the keys of every plain object apart, at every
    depth. *)
Fixpoint told_apart (cmp : string → string → Z) (v : value) : Prop :=
  match v with
  | VArr items =>
      (fix all (l : list value) : Prop :=
         match l with [] => True | x :: r => told_apart cmp x ∧ all r end) items
  | VObj fields =>
      keys_apart cmp (map fst fields) ∧
      (fix all (l : list (string * value)) : Prop :=
         match l with [] => True | (_, x) :: r => told_apart cmp x ∧ all r end) fields
  | VHook json => told_apart cmp json
  | _ => True
  end.

(** The value with every hook replaced by what the hook returns, at every
    depth: an object with a [toJSON] by the result of the call, an
    [Error] by the result of [Error.prototype.toJSON]. *)
Fixpoint expand_hooks (v : value) : value :=
  match v with
  | VArr items => VArr (map expand_hooks items)
  | VObj fields =>
      VObj ((fix expand (l : list (string * value)) :=
               match l with
               | [] => []
               | (k, x) :: r => (k, expand_hooks x) :: expand r
               end) fields)
  | VHook json => expand_hooks json
  | VError e => Error_toJSON e
  | _ => v
  end.

(** No hook is left in the value. *)
Fixpoint hook_free (v : value) : bool :=
  match v with
  | VArr items => forallb hook_free items
  | VObj fields => forallb (λ e, hook_free (snd e)) fields
  | VHook _ | VError _ => false
  | _ => true
  end.

(** The entries of an object with the clone of each value in place. *)
Definition clone_entries (P : Platform) (l : list (string * value))
  : list (string * completion value) :=
  map (λ e, (fst e, deep_clone_and_sort P (snd e))) l.

(** ** The shell-call harness *)

(** [{ is_error: true, error }] or [{ is_error: false, value }] *)
Inductive Errorneous (R : Type) : Type :=
| Err (error : string)
| Ok (value : R).
Arguments Err {R} error.
Arguments Ok {R} value.

(** The object an [Errorneous] is, as the encoder sees it. *)
Definition Errorneous_value (r : Errorneous value) : value :=
  match r with
  | Err error => VObj [("is_error", VBool true); ("error", VStr error)]
  | Ok value => VObj [("is_error", VBool false); ("value", value)]
  end.

(** The three functions a caller hands to [on_shell_call]. *)
Record Phases (BeforeOutput : Type) : Type := {
  before : something → completion BeforeOutput;
  process : BeforeOutput → something → completion something;
  after : option BeforeOutput → something → completion unit;
}.
Arguments before {BeforeOutput} _ _.
Arguments process {BeforeOutput} _ _ _.
Arguments after {BeforeOutput} _ _ _.

(** What a run does to the outside: the calls of the three functions with
    their arguments, the writes to the standard output, the exit. *)
Inductive event (BeforeOutput : Type) : Type :=
| Called_before (before_input : something)
| Called_process (before_output : BeforeOutput) (input : something)
| Called_after (before_output : option BeforeOutput) (after_input : something)
| Stdout_write (text : string)
| Exited.
Arguments Called_before {BeforeOutput} before_input.
Arguments Called_process {BeforeOutput} before_output input.
Arguments Called_after {BeforeOutput} before_output after_input.
Arguments Stdout_write {BeforeOutput} text.
Arguments Exited {BeforeOutput}.

(** A computation appends to the events so far and returns or throws. *)
Definition M (B A : Type) : Type := list (event B) → list (event B) * completion A.

#[global] Instance M_ret {B} : MRet (M B) := λ A a log, (log, Normal a).
#[global] Instance M_bind {B} : MBind (M B) :=
  λ A C f m log,
    match m log with
    | (log', Normal a) => f a log'
    | (log', Throw e) => (log', Throw e)
    end.

Definition lift {B A} (c : completion A) : M B A := λ log, (log, c).

Definition emit {B} (ev : event B) : M B unit := λ log, (log ++ [ev], Normal tt).

(** [try { body } catch (e) { handler(e) }] *)
Definition try_catch {B A} (body : M B A) (handler : value → M B A) : M B A :=
  λ log,
    match body log with
    | (log', Normal a) => (log', Normal a)
    | (log', Throw e) => handler e log'
    end.

Definition call_before {B} (f : Phases B) (before_input : something) : M B B :=
  emit (Called_before before_input) ;; lift (before f before_input).

Definition call_process {B} (f : Phases B) (before_output : B) (input : something)
  : M B something :=
  emit (Called_process before_output input) ;; lift (process f before_output input).

Definition call_after {B} (f : Phases B) (before_output : option B)
    (after_input : something) : M B unit :=
  emit (Called_after before_output after_input) ;;
  lift (after f before_output after_input).

Definition json_output_token : string := "shell_call_json_output:".

(** [for (let input of data.inputs) { try { ... } catch (e) { ... } }],
    with [results] as it stands when the loop reaches [inputs]. *)
Fixpoint process_inputs {B} (P : Platform) (f : Phases B) (before_output : B)
    (inputs : list something) (results : list (Errorneous something))
  : M B (list (Errorneous something)) :=
  match inputs with
  | [] => mret results
  | input :: rest =>
      results' ←
        try_catch
          (value ← call_process f before_output input;
           mret (results ++ [Ok value]))
          (λ e, mret (results ++ [Err (error_message P e)]));
      process_inputs P f before_output rest results'
  end.

(** [on_shell_call] up to the comment "Writing result to STDOUT": the
    checks and the three phases, with the final value of [results].
    [Deno.args[0]] is [undefined] for no argument, which [JSON.parse]
    reads as the text [undefined]. *)
Definition shell_call_results {B} (P : Platform) (Deno_args : list string)
    (f : Phases B) : M B (list (Errorneous something)) :=
  lift (assert_equal P (VNum (Z.of_nat (length Deno_args))) (VNum 1)
          "only one argument expected") ;;
  data ← lift (JSON_parse P (default "undefined" (Deno_args !! 0)));
  (* Calling before *)
  before_output ←
    try_catch
      (before_input ← lift (get_prop P data "before");
       value ← call_before f before_input;
       mret (Ok value))
      (λ e, mret (Err (error_message P e)));
  (* Processing *)
  inputs ← lift (get_prop P data "inputs");
  lift (assert P (Array_isArray inputs) "inputs should be an array") ;;
  results ←
    match before_output with
    | Err error => mret (map (λ _, Err error) (array_items inputs))
    | Ok value => process_inputs P f value (array_items inputs) []
    end;
  (* After *)
  try_catch
    (after_input ← lift (get_prop P data "after");
     call_after f
       (match before_output with Err _ => None | Ok value => Some value end)
       after_input ;;
     mret results)
    (λ e, mret (map (λ _, Err (error_message P e)) (array_items inputs))).

(** "Writing result to STDOUT": the last three statements of
    [on_shell_call]. *)
Definition write_results {B} (P : Platform) (results : list (Errorneous something))
  : M B unit :=
  message ←
    lift (s ← stable_json_stringify P (VArr (map Errorneous_value results)) true;
          Normal (json_output_token +:+ s));
  emit (Stdout_write message) ;;
  emit Exited.

Definition on_shell_call {B} (P : Platform) (Deno_args : list string)
    (f : Phases B) : M B unit :=
  results ← shell_call_results P Deno_args f;
  write_results P results.

(** The calls of [process] among the events. *)
Definition process_calls {B} (log : list (event B)) : list (B * something) :=
  omap (λ ev, match ev with
              | Called_process b x => Some (b, x)
              | _ => None
              end) log.

(** The calls of [before] among the events. *)
Definition before_calls {B} (log : list (event B)) : list something :=
  omap (λ ev, match ev with Called_before x => Some x | _ => None end) log.

(** The calls of [after] among the events. *)
Definition after_calls {B} (log : list (event B)) : list (option B * something) :=
  omap (λ ev, match ev with Called_after b x => Some (b, x) | _ => None end) log.

(** The texts written to the standard output. *)
Definition stdout_writes {B} (log : list (event B)) : list string :=
  omap (λ ev, match ev with Stdout_write s => Some s | _ => None end) log.

(** ** execute_async *)

(** The promise of one [worker()] call: suspended at
    [await process(task)] for the index it claimed, with the outcome that
    call will deliver; returned; or thrown. *)
Inductive promise (R : Type) : Type :=
| Pending (task_i : nat) (outcome : completion R)
| Fulfilled
| Rejected (e : value).
Arguments Pending {R} task_i outcome.
Arguments Fulfilled {R}.
Arguments Rejected {R} e.

(** The variables the workers share: [results], [i], [promises], and the
    indices [process] was called for, in call order. *)
Record pool_state (R : Type) : Type := {
  pool_results : gmap nat R;
  pool_i : nat;
  pool_promises : list (promise R);
  pool_invoked : list nat;
}.
Arguments pool_results {R} _.
Arguments pool_i {R} _.
Arguments pool_promises {R} _.
Arguments pool_invoked {R} _.

(** A schedule says, for each step, which of the pending calls settles
    next (step [t] settles the pending worker number [next_settled t],
    modulo the number of pending workers) and whether a turn of the event
    loop has ended when the step begins. Calls that settle within one
    turn (a mapper that never waits for the outside) are steps of one
    turn; the engine looks for rejected promises without a handler when
    a turn ends. *)
Record schedule : Type := {
  next_settled : nat → nat;
  turn_ends : nat → bool;
}.

(** How the call ends: it returns or throws, or the process is ended by
    the rejections no handler was attached to, and the call does
    neither. *)
Inductive call_outcome (A : Type) : Type :=
| Settled (c : completion A)
| Unhandled_rejection (rejected : list value).
Arguments Settled {A} c.
Arguments Unhandled_rejection {A} rejected.

(** A worker at the head of its loop: [while (i < tasks.length)],
    [task_i = i++], [process(tasks[task_i])], up to the [await]. *)
Definition worker {T R} (tasks : list T) (process : T → completion R)
    (st : pool_state R) : pool_state R * promise R :=
  match tasks !! pool_i st with
  | Some task =>
      ({| pool_results := pool_results st;
          pool_i := S (pool_i st);
          pool_promises := pool_promises st;
          pool_invoked := pool_invoked st ++ [pool_i st] |},
       Pending (pool_i st) (process task))
  | None => (st, Fulfilled)
  end.

(** [for (let i = 0; i < workers_count; i++) promises.push(worker())] *)
Fixpoint spawn {T R} (tasks : list T) (process : T → completion R)
    (workers_count : nat) (st : pool_state R) : pool_state R :=
  match workers_count with
  | 0 => st
  | S n =>
      let '(st', p) := worker tasks process st in
      spawn tasks process n
        {| pool_results := pool_results st';
           pool_i := pool_i st';
           pool_promises := pool_promises st' ++ [p];
           pool_invoked := pool_invoked st' |}
  end.

(** The awaited call of worker [w] settles: on success the worker stores
    the result under the index it claimed and goes round its loop; on
    failure the worker throws. *)
Definition settle {T R} (tasks : list T) (process : T → completion R)
    (w : nat) (st : pool_state R) : pool_state R :=
  match pool_promises st !! w with
  | Some (Pending task_i (Normal r)) =>
      let '(st', p) :=
        worker tasks process
          {| pool_results := <[task_i := r]> (pool_results st);
             pool_i := pool_i st;
             pool_promises := pool_promises st;
             pool_invoked := pool_invoked st |} in
      {| pool_results := pool_results st';
         pool_i := pool_i st';
         pool_promises := <[w := p]> (pool_promises st');
         pool_invoked := pool_invoked st' |}
  | Some (Pending task_i (Throw e)) =>
      {| pool_results := pool_results st;
         pool_i := pool_i st;
         pool_promises := <[w := Rejected e]> (pool_promises st);
         pool_invoked := pool_invoked st |}
  | _ => st
  end.

(** The workers that are suspended, counted from [w]. *)
Fixpoint pending_from {R} (w : nat) (ps : list (promise R)) : list nat :=
  match ps with
  | [] => []
  | Pending _ _ :: r => w :: pending_from (S w) r
  | _ :: r => pending_from (S w) r
  end.

(** [for (const promise of promises) await promise]: done, thrown, or
    still waiting for the first promise that is not settled. *)
Fixpoint await_all {R} (ps : list (promise R)) : option (completion unit) :=
  match ps with
  | [] => Some (Normal tt)
  | Fulfilled :: r => await_all r
  | Rejected e :: _ => Some (Throw e)
  | Pending _ _ :: _ => None
  end.

(** What the workers that have thrown threw, in the order of [promises]. *)
Definition rejections {R} (ps : list (promise R)) : list value :=
  omap (λ p, match p with Rejected e => Some e | _ => None end) ps.

(** The scheduler runs until the caller's loop over [promises] is through;
    then [map(tasks, (_v, i) => results[i])], where a missing key reads as
    [undefined] ([None]). The caller attaches its handler to a promise
    when its loop reaches it: while it waits for a pending promise, the
    promise of a worker further on that throws has no handler, and the
    process ends with the turn. The result comes with the indices
    [process] was called for so far. *)
Fixpoint run {T R} (tasks : list T) (process : T → completion R)
    (sched : schedule) (fuel t : nat) (st : pool_state R)
  : option (call_outcome (list (option R)) * list nat) :=
  match await_all (pool_promises st) with
  | Some (Normal _) =>
      Some (Settled (Normal (imap (λ k _, pool_results st !! k) tasks)),
            pool_invoked st)
  | Some (Throw e) => Some (Settled (Throw e), pool_invoked st)
  | None =>
      match rejections (pool_promises st), turn_ends sched t with
      | _ :: _, true =>
          Some (Unhandled_rejection (rejections (pool_promises st)),
                pool_invoked st)
      | _, _ =>
          match fuel with
          | 0 => None
          | S fuel' =>
              let pending := pending_from 0 (pool_promises st) in
              match pending !! (next_settled sched t mod length pending) with
              | Some w =>
                  run tasks process sched fuel' (S t) (settle tasks process w st)
              | None => None
              end
          end
      end
  end.

(** Every step settles one call and at most one call is made per task:
    [length tasks] steps are enough. *)
Definition execute_async {T R} (tasks : list T) (process : T → completion R)
    (workers_count : nat) (sched : schedule)
  : option (call_outcome (list (option R)) * list nat) :=
  run tasks process sched (S (length tasks)) 0
    (spawn tasks process workers_count
       {| pool_results := ∅; pool_i := 0; pool_promises := []; pool_invoked := [] |}).

(** What holds of the shared variables at every step. *)
Record pool_inv {T R} (tasks : list T) (process : T → completion R)
    (st : pool_state R) : Prop := {
  (** the cursor stays within the tasks *)
  inv_i : pool_i st ≤ length tasks;
  (** [process] was called for the indices below the cursor, in order *)
  inv_invoked : pool_invoked st = seq 0 (pool_i st);
  (** a claimed task is done, awaited by a worker, or a worker has thrown *)
  inv_claimed : ∀ j t, j < pool_i st → tasks !! j = Some t →
    (∃ r, process t = Normal r ∧ pool_results st !! j = Some r) ∨
    (∃ w, pool_promises st !! w = Some (Pending j (process t))) ∨
    (∃ w e, pool_promises st !! w = Some (Rejected e));
  (** a suspended worker awaits the call for the task it claimed *)
  inv_pending : ∀ w j o, pool_promises st !! w = Some (Pending j o) →
    ∃ t, tasks !! j = Some t ∧ o = process t;
  (** a worker returns only when no task is left *)
  inv_fulfilled : ∀ w, pool_promises st !! w = Some Fulfilled →
    pool_i st = length tasks;
  (** a worker throws what the call for one of the tasks threw *)
  inv_rejected : ∀ w e, pool_promises st !! w = Some (Rejected e) →
    ∃ t, t ∈ tasks ∧ process t = Throw e;
  (** every suspended worker holds a task of its own *)
  inv_measure : length (pending_from 0 (pool_promises st)) ≤ pool_i st;
}.

(** The result of [run] in its last state: the caller's loop is through,
    or the process has ended. *)
Definition finish {T R} (tasks : list T) (st : pool_state R)
  : option (call_outcome (list (option R)) * list nat) :=
  match await_all (pool_promises st) with
  | Some (Normal _) =>
      Some (Settled (Normal (imap (λ k _, pool_results st !! k) tasks)),
            pool_invoked st)
  | Some (Throw e) => Some (Settled (Throw e), pool_invoked st)
  | None =>
      Some (Unhandled_rejection (rejections (pool_promises st)), pool_invoked st)
  end.

(** ** A small engine, to run the definitions on examples *)

(** The comparison of two keys by their bytes. *)
Definition bytewise_compare (a b : string) : Z :=
  match String.compare a b with Lt => (-1)%Z | Eq => 0%Z | Gt => 1%Z end.

Definition quote : string := String (Ascii.ascii_of_nat 34) "".

Definition join (sep : string) (l : list string) : string := String.concat sep l.

(** A compact rendering, without indentation and without escapes; a
    property whose value is [undefined] is left out. *)
Fixpoint render (v : value) : string :=
  match v with
  | VUndefined | VNull => "null"
  | VBool true => "true"
  | VBool false => "false"
  | VNum n => pretty n
  | VStr s => quote +:+ s +:+ quote
  | VArr items => "[" +:+ join "," (map render items) +:+ "]"
  | VObj fields =>
      "{" +:+
      join ","
        ((fix go (l : list (string * value)) :=
            match l with
            | [] => []
            | (_, VUndefined) :: r => go r
            | (k, x) :: r => (quote +:+ k +:+ quote +:+ ":" +:+ render x) :: go r
            end) fields) +:+ "}"
  | VHook json => render json
  | VError e => quote +:+ message e +:+ quote
  end.

(** The texts a sample engine can decode are listed with their values. *)
Fixpoint decode (table : list (string * value)) (text : string) : completion value :=
  match table with
  | [] => Throw (VError {| message := "Unexpected token"; stack := None |})
  | (t, v) :: r => if String.eqb t text then Normal v else decode r text
  end.

Definition sample_platform (table : list (string * value)) : Platform :=
  {| JSON_parse := decode table;
     JSON_stringify := λ v _, render v;
     localeCompare := bytewise_compare;
     Object_assign := VObj;
     to_string := λ v, match v with VStr s => s | _ => render v end;
     capture_stack := λ _, None |}.

(** The character DEL, which the collation of the engine ignores. *)
Definition del : string := String (Ascii.ascii_of_nat 127) "".

Fixpoint without_del (s : string) : string :=
  match s with
  | EmptyString => EmptyString
  | String c r =>
      if Ascii.eqb c (Ascii.ascii_of_nat 127) then without_del r
      else String c (without_del r)
  end.

(** A comparison for which, as for the engine's [localeCompare], a key
    with a DEL and the same key without it compare as equal. *)
Definition collating_compare (a b : string) : Z :=
  bytewise_compare (without_del a) (without_del b).

(** The sample engine with this comparison in place of the bytewise one. *)
Definition collating_engine : Platform :=
  {| JSON_parse := decode [];
     JSON_stringify := λ v _, render v;
     localeCompare := collating_compare;
     Object_assign := VObj;
     to_string := λ v, match v with VStr s => s | _ => render v end;
     capture_stack := λ _, None |}.

(** The same two properties, written in the two orders. *)
Definition equal_keys_a : value :=
  VObj [("a" +:+ del, VNum 1); ("a", VNum 2)].

Definition equal_keys_b : value :=
  VObj [("a", VNum 2); ("a" +:+ del, VNum 1)].

(** The invocation of the first scenario: [inputs = [1, 2, 3]]. *)
Definition sample_payload : value :=
  VObj [("before", VNull);
        ("inputs", VArr [VNum 1; VNum 2; VNum 3]);
        ("after", VNull)].

(** An invocation whose [inputs] is a number. *)
Definition malformed_payload : value :=
  VObj [("before", VNull); ("inputs", VNum 3); ("after", VNull)].

(** The sample engine decodes the renderings of the two payloads. *)
Definition sample_engine : Platform :=
  sample_platform
    [(render sample_payload, sample_payload);
     (render malformed_payload, malformed_payload)].

(** [process] doubles its input and throws on [3]; [before] and [after]
    throw on demand. *)
Definition sample_phases (before_fails after_fails : bool) : Phases Z :=
  {| before := λ _, if before_fails then Throw (VStr "boom") else Normal 7%Z;
     process := λ _ input,
       match input with
       | VNum 3 => Throw (VStr "bad item")
       | VNum n => Normal (VNum (n * 2))
       | _ => Throw (VStr "not a number")
       end;
     after := λ _ _, if after_fails then Throw (VStr "teardown fail") else Normal tt |}.

(** [process] doubles its input and throws an [Error] on [2], the input in
    the middle; [before] and [after] throw the [Error] they are given. *)
Definition failing_phases (before_error after_error : option Error) : Phases Z :=
  {| before := λ _,
       match before_error with Some e => Throw (VError e) | None => Normal 7%Z end;
     process := λ _ input,
       match input with
       | VNum 2 => Throw (VError {| message := "bad item"; stack := None |})
       | VNum n => Normal (VNum (n * 2))
       | _ => Throw (VError {| message := "not a number"; stack := None |})
       end;
     after := λ _ _,
       match after_error with Some e => Throw (VError e) | None => Normal tt end |}.

(** [process] returns, for [2], an object with a data property [toJSON]. *)
Definition toJSON_phases : Phases Z :=
  {| before := λ _, Normal 7%Z;
     process := λ _ input,
       match input with
       | VNum 2 => Normal (VObj [("toJSON", VNum 1)])
       | _ => Normal input
       end;
     after := λ _ _, Normal tt |}.

(** [process] throws an [Error] without a message on [2]. *)
Definition silent_phases : Phases Z :=
  {| before := λ _, Normal 7%Z;
     process := λ _ input,
       match input with
       | VNum 2 => Throw (VError {| message := ""; stack := None |})
       | VNum n => Normal (VNum (n * 2))
       | _ => Throw (VError {| message := "not a number"; stack := None |})
       end;
     after := λ _ _, Normal tt |}.

(** The tasks of the pool scenario: squares of [1..5]; the variant fails
    on [4]. *)
Definition square (x : Z) : completion Z := Normal (x * x)%Z.

Definition square_but_4 (x : Z) : completion Z :=
  if (x =? 4)%Z then Throw (VStr "four") else Normal (x * x)%Z.

(** The second of the suspended workers always settles first: task 1 is
    done before task 0; every call settles in a turn of its own. *)
Definition second_first : schedule :=
  {| next_settled := λ _, 1; turn_ends := λ _, true |}.

(** The first of the suspended workers always settles first. *)
Definition first_first : schedule :=
  {| next_settled := λ _, 0; turn_ends := λ _, true |}.

(** The workers take turns and all calls settle within one turn, as with
    a mapper that never waits for the outside. *)
Definition one_turn : schedule :=
  {| next_settled := λ t, t; turn_ends := λ _, false |}.

(** Two nested objects built in different orders, with a hook and an
    [Error] inside. *)
Definition sample_a : value :=
  VObj [("name", VStr "x");
        ("list", VArr [VNum 2; VNum 1; VObj [("k", VNull); ("j", VBool true)]]);
        ("when", VHook (VObj [("t", VNum 5); ("s", VNum 6)]));
        ("err", VError {| message := "boom"; stack := None |})].

Definition sample_b : value :=
  VObj [("err", VError {| message := "boom"; stack := None |});
        ("list", VArr [VNum 2; VNum 1; VObj [("j", VBool true); ("k", VNull)]]);
        ("name", VStr "x");
        ("when", VHook (VObj [("s", VNum 6); ("t", VNum 5)]))].

(** ** The list functions of [base.ts] *)

(** The array overloads of the "Extensions" of [base.ts], and [once] and
    [get_environment]. A callback that writes to a variable of the
    enclosing function ([selected.push(v)], [accumulator = ...]) takes the
    state and returns it. The parameter [list] of the source is [l]. *)
Module Base.

(** [list.slice(start, end)]: a negative bound counts from the end, and
    both bounds are clamped to the list. *)
Definition Array_slice {V} (l : list V) (start end_ : Z) : list V :=
  let len := Z.of_nat (length l) in
  let k := if (start <? 0)%Z then Z.max (len + start) 0 else Z.min start len in
  let final := if (end_ <? 0)%Z then Z.max (len + end_) 0 else Z.min end_ len in
  firstn (Z.to_nat (final - k)) (skipn (Z.to_nat k) l).

(** [take(list, n)] *)
Definition take {V} (l : list V) (n : Z) : list V := Array_slice l 0 n.

(** What [first] and [last] return: one element without [n], a list with. *)
Inductive one_or_many (V : Type) : Type :=
| One (v : V)
| Many (l : list V).
Arguments One {V} v.
Arguments Many {V} l.

(** [last(list, n?)]. An element stands at [length - 1] exactly when the
    list is not empty. The numbers in the message are printed by the
    engine. *)
Definition last {V} (P : Platform) (l : list V) (n : option Z)
  : completion (one_or_many V) :=
  match n with
  | None =>
      match (if length l <? 1 then None else l !! (length l - 1)) with
      | None =>
          Throw (VError (new_Error P "can't get last elements from empty list"))
      | Some v => Normal (One v)
      end
  | Some n =>
      if (Z.of_nat (length l) <? n)%Z
      then Throw (VError (new_Error P
             ("can't get last " +:+ to_string P (VNum n) +:+
              " elements from list of length " +:+
              to_string P (VNum (Z.of_nat (length l))))))
      else Normal (Many (Array_slice l (Z.of_nat (length l) - n)
                           (Z.of_nat (length l))))
  end.

(** [first(list, n?)] *)
Definition first {V} (P : Platform) (l : list V) (n : option Z)
  : completion (one_or_many V) :=
  match n with
  | None =>
      match (if length l <? 1 then None else l !! 0) with
      | None =>
          Throw (VError (new_Error P "can't get first elements from empty list"))
      | Some v => Normal (One v)
      end
  | Some n =>
      if (Z.of_nat (length l) <? n)%Z
      then Throw (VError (new_Error P
             ("can't get first " +:+ to_string P (VNum n) +:+
              " elements from list of length " +:+
              to_string P (VNum (Z.of_nat (length l))))))
      else Normal (Many (Array_slice l 0 n))
  end.

(** [each(o, f)] for an array: [for (let i = 0; i < o.length; i++) f(o[i], i)] *)
Fixpoint each_from {V St} (i : nat) (o : list V) (f : V → nat → St → St) (s : St)
  : St :=
  match o with
  | [] => s
  | v :: r => each_from (S i) r f (f v i s)
  end.

Definition each {V St} (o : list V) (f : V → nat → St → St) (s : St) : St :=
  each_from 0 o f s.

(** [reduce(o, accumulator, f)] *)
Definition reduce {A V} (o : list V) (accumulator : A) (f : A → V → nat → A) : A :=
  each o (λ v i accumulator, f accumulator v i) accumulator.

(** [keys(list)] *)
Definition keys {V} (o : list V) : list nat :=
  reduce o [] (λ acc _ k, acc ++ [k]).

(** [values(list)] *)
Definition values {V} (o : list V) : list V :=
  reduce o [] (λ acc v _, acc ++ [v]).

(** [flatten(list)] *)
Definition flatten {T} (l : list (list T)) : list T :=
  reduce l [] (λ acc v _, acc ++ v).

(** The second argument of [partition] and [reject]: a function, or the
    keys to select. *)
Inductive splitter (V : Type) : Type :=
| Splitter_function (f : V → nat → bool)
| Splitter_keys (keys : list Z).
Arguments Splitter_function {V} f.
Arguments Splitter_keys {V} keys.

(** [keys.includes(i)] for an index [i] *)
Definition includes (keys : list Z) (i : nat) : bool :=
  bool_decide (Z.of_nat i ∈ keys).

(** [partition(o, splitter)] for an array *)
Definition partition {V} (o : list V) (splitter : splitter V) : list V * list V :=
  let f :=
    match splitter with
    | Splitter_function f => f
    | Splitter_keys keys => λ _ i, includes keys i
    end in
  each o
    (λ v i st,
       if f v i then (fst st ++ [v], snd st) else (fst st, snd st ++ [v]))
    ([], []).

(** [reject(o, f)] *)
Definition reject {V} (o : list V) (f : splitter V) : list V := snd (partition o f).

(** [pick(o, keys)] *)
Definition pick {V} (o : list V) (keys : list Z) : list V :=
  fst (partition o (Splitter_function (λ _ i, includes keys i))).

(** [filter_map(o, f)] for an array: a result is kept unless it is [false]. *)
Definition filter_map (o : list value) (f : value → nat → value) : list value :=
  each o
    (λ v k filtered,
       let r := f v k in
       match r with
       | VBool false => filtered
       | _ => filtered ++ [r]
       end)
    [].

(** [skip_undefined(list)] *)
Definition skip_undefined (l : list value) : list value :=
  filter_map l (λ v _, match v with VUndefined => VBool false | _ => v end).

(** What a [Set] holds and compares: a primitive, compared by value, or an
    object, compared by reference (two objects are the same key only when
    they are one object). *)
Inductive Set_key : Type :=
| Key_undefined
| Key_null
| Key_boolean (b : bool)
| Key_number (n : Z)
| Key_string (s : string)
| Key_object (reference : nat).

#[global] Instance Set_key_eq_dec : EqDecision Set_key.
Proof. solve_decision. Defined.

(** [unique(list, to_key)]: [list.filter] with the set of the keys seen so
    far. Without [to_key] the elements are their own keys. *)
Fixpoint unique_filter {V} (to_key : V → Set_key)
    (set : list Set_key) (l : list V) : list V :=
  match l with
  | [] => []
  | v :: r =>
      let key := to_key v in
      if bool_decide (key ∈ set) then unique_filter to_key set r
      else v :: unique_filter to_key (set ++ [key]) r
  end.

Definition unique {V} (l : list V) (to_key : V → Set_key) : list V :=
  unique_filter to_key [] l.

(** [find_index(list, f)]; [None] is [undefined]. *)
Fixpoint find_index_from {T} (i : nat) (l : list T) (predicate : T → nat → bool)
  : option nat :=
  match l with
  | [] => None
  | v :: r => if predicate v i then Some i else find_index_from (S i) r predicate
  end.

Definition find_index {T} (l : list T) (predicate : T → nat → bool) : option nat :=
  find_index_from 0 l predicate.

(** [find_last_index(list, f)]: [i] runs from [length - 1] down to [0];
    [below] is [i + 1]. *)
Fixpoint find_last_index_below {T} (below : nat) (l : list T)
    (predicate : T → nat → bool) : option nat :=
  match below with
  | 0 => None
  | S i =>
      match l !! i with
      | Some v =>
          if predicate v i then Some i
          else find_last_index_below i l predicate
      | None => find_last_index_below i l predicate
      end
  end.

Definition find_last_index {T} (l : list T) (predicate : T → nat → bool)
  : option nat :=
  find_last_index_below (length l) l predicate.

(** [for (const k in o) if (o.hasOwnProperty(k)) if (predicate(o[k], k))
    return o[k]] for an array [o]: the keys are the indices, as strings. *)
Fixpoint for_in_find (k : nat) (rest : list value) (predicate : value → value → bool)
  : option value :=
  match rest with
  | [] => None
  | v :: r =>
      if predicate v (VStr (pretty k)) then Some v
      else for_in_find (S k) r predicate
  end.

(** The loop of [find] over the indices of an array. The [else] of the
    source belongs to the [if] inside the loop: when the predicate fails
    at [i], the [for ... in] loop runs over the whole of [o]. *)
Fixpoint find_from (i : nat) (rest o : list value) (predicate : value → value → bool)
  : value :=
  match rest with
  | [] => VUndefined
  | v :: r =>
      if predicate v (VNum (Z.of_nat i)) then v
      else
        match for_in_find 0 o predicate with
        | Some found => found
        | None => find_from (S i) r o predicate
        end
  end.

(** [find(o, finder)] with a function for [finder]. For a value that is
    not an array there is no statement to run but [return undefined]. *)
Definition find (o : value) (predicate : value → value → bool) : value :=
  match o with
  | VArr items => find_from 0 items items predicate
  | _ => VUndefined
  end.

(** [has(o, finder)] *)
Definition has (o : value) (finder : value → value → bool) : bool :=
  truthy (find o finder).

(** [ensure_find(o, finder, on_error)] with a string, or nothing, for
    [on_error]. *)
Definition ensure_find (P : Platform) (o : value) (finder : value → value → bool)
    (on_error : option string) : completion value :=
  let found := find o finder in
  match found with
  | VUndefined =>
      Throw (VError (new_Error P
        (match on_error with
         | Some text => if truthy (VStr text) then text else "element not found!"
         | None => "element not found!"
         end)))
  | _ => Normal found
  end.

(** [group_by(list, f)]: the [Map] is the list of its entries in insertion
    order; [group.push(v)] writes to the group the map holds. *)
Fixpoint Map_get {K V} `{EqDecision K} (m : list (K * V)) (key : K) : option V :=
  match m with
  | [] => None
  | (k, v) :: r => if decide (k = key) then Some v else Map_get r key
  end.

Fixpoint Map_alter {K V} `{EqDecision K} (g : V → V) (key : K) (m : list (K * V))
  : list (K * V) :=
  match m with
  | [] => []
  | (k, v) :: r =>
      if decide (k = key) then (k, g v) :: r else (k, v) :: Map_alter g key r
  end.

Definition group_by {K V} `{EqDecision K} (l : list V) (f : V → nat → K)
  : list (K * list V) :=
  reduce l []
    (λ acc v i,
       let key := f v i in
       match Map_get acc key with
       | None => acc ++ [(key, [v])]
       | Some _ => Map_alter (λ group, group ++ [v]) key acc
       end).

(** The [for] loop of [group_by_n], [left] iterations before [j] reaches
    [n]: the group as the loop leaves it, and whether it left by
    [return]. *)
Fixpoint group_by_n_for {V} (l : list V) (i j left : nat) (group : list V)
  : list V * bool :=
  match left with
  | 0 => (group, false)
  | S left' =>
      match l !! (i + j) with
      | Some v => group_by_n_for l i (S j) left' (group ++ [v])
      | None => (group, true)
      end
  end.

(** The [while (true)] loop of [group_by_n]. The group is pushed to the
    result before it is filled; the result holds it as filled. [None]: the
    loop has not returned within [fuel] rounds. *)
Fixpoint group_by_n_while {V} (fuel : nat) (l : list V) (n i : nat)
    (result : list (list V)) : option (list (list V)) :=
  match fuel with
  | 0 => None
  | S fuel' =>
      let '(group, returned) := group_by_n_for l i 0 n [] in
      let result' := if i <? length l then result ++ [group] else result in
      if returned then Some result'
      else group_by_n_while fuel' l n (i + n) result'
  end.

Definition group_by_n {V} (fuel : nat) (l : list V) (n : nat)
  : option (list (list V)) :=
  group_by_n_while fuel l n 0 [].

(** [once(f)]: the two variables the returned function closes over. *)
Record once_state : Type := { called : bool; result : value }.

Definition once_init : once_state := {| called := false; result := VUndefined |}.

(** One call of the function [once(f)] returns, with the arguments of the
    call: what it returns, the variables after it, and whether [f] was
    called. *)
Definition once_call (f : list value → completion value) (arguments : list value)
    (st : once_state) : completion value * once_state * bool :=
  if called st then (Normal (result st), st, false)
  else
    match f arguments with
    | Normal r => (Normal VUndefined, {| called := true; result := r |}, true)
    | Throw e => (Throw e, st, true)
    end.

(** Calls in a row: what they return, the variables at the end, and how
    often [f] was called. *)
Fixpoint once_calls (f : list value → completion value)
    (calls : list (list value)) (st : once_state)
  : list (completion value) * once_state * nat :=
  match calls with
  | [] => ([], st, 0)
  | arguments :: rest =>
      let '(r, st', invoked) := once_call f arguments st in
      let '(rs, st'', count) := once_calls f rest st' in
      (r :: rs, st'', (if invoked then 1 else 0) + count)
  end.

(** [get_environment()] *)
Inductive Environment : Type := development | production | test.

Definition Environment_of (text : string) : option Environment :=
  if String.eqb text "development" then Some development
  else if String.eqb text "production" then Some production
  else if String.eqb text "test" then Some test
  else None.

(** One call, with what [is_browser()] and
    [Deno.env.get('environment')] give at the time of the call: the
    result, and [cached_environment] after the call. *)
Definition get_environment (P : Platform) (is_browser : bool)
    (env : option string) (cached_environment : option Environment)
  : completion Environment * option Environment :=
  match cached_environment with
  | Some e => (Normal e, cached_environment)
  | None =>
      if is_browser then (Normal development, Some development)
      else
        let environment :=
          match env with
          | Some text => if truthy (VStr text) then text else "development"
          | None => "development"
          end in
        match Environment_of environment with
        | None =>
            (Throw (VError (new_Error P
               ("invalid environment '" +:+ environment +:+ "'"))), None)
        | Some e => (Normal e, Some e)
        end
  end.

End Base.

(** * Properties *)

(** ** The encoder *)

Lemma value_nested_ind (Q : value → Prop) :
  Q VUndefined → Q VNull → (∀ b, Q (VBool b)) → (∀ n, Q (VNum n)) →
  (∀ s, Q (VStr s)) →
  (∀ items, Forall Q items → Q (VArr items)) →
  (∀ fields, Forall (λ e, Q (snd e)) fields → Q (VObj fields)) →
  (∀ json, Q json → Q (VHook json)) →
  (∀ e, Q (VError e)) →
  ∀ v, Q v.
Proof.
  intros Hundefined Hnull Hbool Hnum Hstr Harr Hobj Hhook Herror.
  fix IH 1. intros [| | b | n | s | items | fields | json | e].
  - exact Hundefined.
  - exact Hnull.
  - apply Hbool.
  - apply Hnum.
  - apply Hstr.
  - apply Harr. induction items as [|x r IHr]; constructor; [apply IH | apply IHr].
  - apply Hobj. induction fields as [|x r IHr]; constructor; [apply IH | apply IHr].
  - apply Hhook, IH.
  - apply Herror.
Qed.

Lemma key_order_equiv_refl v : key_order_equiv v v.
Proof.
  induction v as [| | | | |items IH|fields IH|json IH|e] using value_nested_ind;
    try by constructor.
  - apply koe_arr. induction IH; by constructor.
  - apply koe_obj. induction IH as [|[k x] r Hx _ IHr]; by constructor.
Qed.

Lemma distinct_keys_arr items :
  distinct_keys (VArr items) ↔ Forall distinct_keys items.
Proof.
  simpl. induction items as [|x r IH]; [by split; [constructor|] |].
  rewrite Forall_cons. by rewrite IH.
Qed.

Lemma distinct_keys_obj fields :
  distinct_keys (VObj fields) ↔
  NoDup (map fst fields) ∧ Forall (λ e, distinct_keys (snd e)) fields.
Proof.
  simpl. apply and_iff_compat_l.
  induction fields as [|[k x] r IH]; [by split; [constructor|] |].
  rewrite Forall_cons. simpl. by rewrite IH.
Qed.

Lemma deep_clone_and_sort_obj P fields :
  deep_clone_and_sort P (VObj fields) =
  if has_key "toJSON" fields
  then Throw (VError (new_Error P "obj.toJSON is not a function"))
  else Object_assign P <$>
         sequence_entries (sort_entries (localeCompare P) (clone_entries P fields)).
Proof.
  simpl. destruct (has_key "toJSON" fields); [done |].
  do 3 f_equal. unfold clone_entries.
  induction fields as [|[k v] r IH]; [done |]. simpl. by rewrite IH.
Qed.

(** An [Error] is expanded by [Error.prototype.toJSON] and the result cloned. *)
Lemma deep_clone_and_sort_error P e :
  deep_clone_and_sort P (VError e) = deep_clone_and_sort P (Error_toJSON e).
Proof.
  unfold Error_toJSON. rewrite deep_clone_and_sort_obj. simpl.
  destruct (stack e); simpl;
    by destruct (0 <? localeCompare P "message" "stack")%Z.
Qed.

(** *** The sort does not depend on the order of keys that are told apart *)

Section sort_facts.
Context {A : Type} (cmp : string → string → Z) (Hcmp : collation cmp).

Lemma insert_entry_comm (x y : string * A) l :
  (0 < cmp (fst x) (fst y))%Z ∨ (0 < cmp (fst y) (fst x))%Z →
  insert_entry cmp x (insert_entry cmp y l) =
  insert_entry cmp y (insert_entry cmp x l).
Proof using Hcmp.
  intros Hxy. induction l as [|z r IH]; simpl.
  - destruct (Z.ltb_spec 0 (cmp (fst x) (fst y))) as [Hx|Hx],
             (Z.ltb_spec 0 (cmp (fst y) (fst x))) as [Hy|Hy]; try done.
    + by destruct (cmp_asym _ Hcmp _ _ Hx).
    + destruct Hxy; lia.
  - destruct (Z.ltb_spec 0 (cmp (fst y) (fst z))) as [Hyz|Hyz],
             (Z.ltb_spec 0 (cmp (fst x) (fst z))) as [Hxz|Hxz]; simpl.
    + apply Z.ltb_lt in Hyz, Hxz. rewrite Hyz, Hxz. by rewrite IH.
    + destruct (Z.ltb_spec 0 (cmp (fst y) (fst x))) as [Hy|Hy].
      * apply Z.ltb_lt in Hyz. simpl. rewrite Hyz.
        destruct (Z.ltb_spec 0 (cmp (fst x) (fst z))); [lia | done].
      * destruct Hxy as [Hx|Hx]; [| lia].
        pose proof (cmp_trans _ Hcmp _ _ _ Hx Hyz). lia.
    + destruct (Z.ltb_spec 0 (cmp (fst x) (fst y))) as [Hx|Hx].
      * apply Z.ltb_lt in Hxz. simpl. rewrite Hxz.
        destruct (Z.ltb_spec 0 (cmp (fst y) (fst z))); [lia | done].
      * destruct Hxy as [Hy|Hy]; [lia |].
        pose proof (cmp_trans _ Hcmp _ _ _ Hy Hxz). lia.
    + destruct (Z.ltb_spec 0 (cmp (fst x) (fst y))) as [Hx|Hx],
               (Z.ltb_spec 0 (cmp (fst y) (fst x))) as [Hy|Hy]; simpl.
      * by destruct (cmp_asym _ Hcmp _ _ Hx).
      * destruct (Z.ltb_spec 0 (cmp (fst x) (fst z))); [lia | done].
      * destruct (Z.ltb_spec 0 (cmp (fst y) (fst z))); [lia | done].
      * destruct Hxy; lia.
Qed.

Lemma insert_entry_Permutation (x : string * A) l :
  insert_entry cmp x l ≡ₚ x :: l.
Proof.
  induction l as [|y r IH]; simpl; [done |].
  destruct (0 <? cmp (fst x) (fst y))%Z; [| done].
  rewrite IH. apply Permutation_swap.
Qed.

Lemma sort_entries_Permutation (l : list (string * A)) :
  sort_entries cmp l ≡ₚ l.
Proof.
  induction l as [|x r IH]; simpl; [done |].
  by rewrite insert_entry_Permutation, IH.
Qed.

End sort_facts.

(** *** Equivalent values have the same clone *)

Lemma koe_preserves_distinct_keys :
  (∀ a b, key_order_equiv a b → distinct_keys a → distinct_keys b) ∧
  (∀ l l', koe_items l l' →
     Forall distinct_keys l → Forall distinct_keys l') ∧
  (∀ f f', koe_fields f f' →
     map fst f ≡ₚ map fst f' ∧
     (Forall (λ e, distinct_keys (snd e)) f →
      Forall (λ e, distinct_keys (snd e)) f')).
Proof.
  apply koe_mutind; try done.
  - intros l l' _ IH. rewrite !distinct_keys_arr. apply IH.
  - intros f f' _ [Hp IH]. rewrite !distinct_keys_obj.
    intros [Hnd Hall]. split; [by rewrite <- Hp | by apply IH].
  - intros v v' l l' _ IHv _ IHl. rewrite !Forall_cons.
    intros [Hv Hl]. auto.
  - intros k v v' f f' _ IHv _ [Hp IHf]. split; [simpl; by rewrite Hp |].
    rewrite !Forall_cons. intros [Hv Hf]. auto.
  - intros k1 v1 k2 v2 f. split; [simpl; apply Permutation_swap |].
    rewrite !Forall_cons. intros (H1 & H2 & Hf). auto.
  - intros f g h _ [Hp1 IH1] _ [Hp2 IH2]. split; [by rewrite Hp1 | auto].
Qed.

Lemma has_key_Permutation {A} k (f f' : list (string * A)) :
  map fst f ≡ₚ map fst f' → has_key k f = has_key k f'.
Proof.
  intros Hp. unfold has_key.
  assert (Hk : ∀ g : list (string * A),
    existsb (λ e, String.eqb (fst e) k) g = true ↔ k ∈ map fst g).
  { intros g. rewrite existsb_exists, list_elem_of_fmap. split.
    - intros [e [Hin He]]. apply String.eqb_eq in He.
      exists e. split; [done | by apply list_elem_of_In].
    - intros [e [He Hin]]. exists e.
      split; [by apply list_elem_of_In | rewrite He; apply String.eqb_refl]. }
  apply eq_true_iff_eq. rewrite !Hk. by rewrite Hp.
Qed.

Lemma told_apart_arr cmp items :
  told_apart cmp (VArr items) ↔ Forall (told_apart cmp) items.
Proof.
  simpl. induction items as [|x r IH]; [by split; [constructor|] |].
  rewrite Forall_cons. by rewrite IH.
Qed.

Lemma told_apart_obj cmp fields :
  told_apart cmp (VObj fields) ↔
  keys_apart cmp (map fst fields) ∧ Forall (λ e, told_apart cmp (snd e)) fields.
Proof.
  simpl. apply and_iff_compat_l.
  induction fields as [|[k x] r IH]; [by split; [constructor|] |].
  rewrite Forall_cons. simpl. by rewrite IH.
Qed.

Lemma keys_apart_Permutation cmp keys keys' :
  keys ≡ₚ keys' → keys_apart cmp keys → keys_apart cmp keys'.
Proof.
  intros Hp Hk a b Ha Hb. apply Hk; by rewrite Hp.
Qed.

Lemma koe_preserves_told_apart cmp :
  (∀ a b, key_order_equiv a b → told_apart cmp a → told_apart cmp b) ∧
  (∀ l l', koe_items l l' →
     Forall (told_apart cmp) l → Forall (told_apart cmp) l') ∧
  (∀ f f', koe_fields f f' →
     Forall (λ e, told_apart cmp (snd e)) f →
     Forall (λ e, told_apart cmp (snd e)) f').
Proof.
  apply koe_mutind; try done.
  - intros l l' _ IH. rewrite !told_apart_arr. apply IH.
  - intros f f' Hff' IH. rewrite !told_apart_obj.
    destruct (proj2 (proj2 koe_preserves_distinct_keys) _ _ Hff') as [Hp _].
    intros [Hk Hall]. split; [by apply (keys_apart_Permutation _ _ _ Hp) | by apply IH].
  - intros v v' l l' _ IHv _ IHl. rewrite !Forall_cons.
    intros [Hv Hl]. auto.
  - intros k v v' f f' _ IHv _ IHf. rewrite !Forall_cons. intros [Hv Hf]. auto.
  - intros k1 v1 k2 v2 f. rewrite !Forall_cons. intros (H1 & H2 & Hf). auto.
  - intros f g h _ IH1 _ IH2. auto.
Qed.

Lemma deep_clone_and_sort_koe P :
  collation (localeCompare P) →
  (∀ a b, key_order_equiv a b →
     distinct_keys a → told_apart (localeCompare P) a →
     deep_clone_and_sort P a = deep_clone_and_sort P b) ∧
  (∀ l l', koe_items l l' →
     Forall distinct_keys l → Forall (told_apart (localeCompare P)) l →
     map (deep_clone_and_sort P) l = map (deep_clone_and_sort P) l') ∧
  (∀ f f', koe_fields f f' →
     NoDup (map fst f) → keys_apart (localeCompare P) (map fst f) →
     Forall (λ e, distinct_keys (snd e)) f →
     Forall (λ e, told_apart (localeCompare P) (snd e)) f →
     sort_entries (localeCompare P) (clone_entries P f) =
     sort_entries (localeCompare P) (clone_entries P f')).
Proof.
  intros Hcmp. apply koe_mutind; try done.
  - intros l l' _ IH Hd Ht. apply distinct_keys_arr in Hd.
    apply told_apart_arr in Ht. simpl. by rewrite (IH Hd Ht).
  - intros f f' Hff' IH Hd Ht. apply distinct_keys_obj in Hd as [Hnd Hall].
    apply told_apart_obj in Ht as [Hk Hall'].
    rewrite !deep_clone_and_sort_obj.
    destruct (proj2 (proj2 koe_preserves_distinct_keys) _ _ Hff') as [Hp _].
    rewrite <- (has_key_Permutation "toJSON" f f' Hp).
    by rewrite (IH Hnd Hk Hall Hall').
  - intros v v' l l' _ IHv _ IHl Hd Ht. apply Forall_cons in Hd as [Hv Hl].
    apply Forall_cons in Ht as [Hv' Hl'].
    simpl. by rewrite (IHv Hv Hv'), (IHl Hl Hl').
  - intros k v v' f f' _ IHv _ IHf Hnd Hk Hall Hall'. simpl in Hnd.
    apply NoDup_cons in Hnd as [_ Hnd]. apply Forall_cons in Hall as [Hv Hall].
    apply Forall_cons in Hall' as [Hv' Hall'].
    assert (Hk' : keys_apart (localeCompare P) (map fst f)).
    { intros a b Ha Hb. apply Hk; simpl; by right. }
    simpl in *. by rewrite (IHv Hv Hv'), (IHf Hnd Hk' Hall Hall').
  - intros k1 v1 k2 v2 f Hnd Hk _ _. simpl in Hnd.
    apply NoDup_cons in Hnd as [Hne _]. simpl.
    apply (insert_entry_comm _ Hcmp). simpl.
    apply Hk; simpl; [by left | by right; left | set_solver].
  - intros f g h Hfg IH1 _ IH2 Hnd Hk Hall Hall'.
    destruct (proj2 (proj2 koe_preserves_distinct_keys) _ _ Hfg) as [Hp Hd].
    rewrite (IH1 Hnd Hk Hall Hall'). apply IH2.
    + by rewrite <- Hp.
    + by apply (keys_apart_Permutation _ _ _ Hp).
    + auto.
    + by apply (proj2 (proj2 (koe_preserves_told_apart _)) _ _ Hfg).
Qed.

(** A comparison that orders any two different keys tells every value
    apart. *)
Lemma told_apart_total cmp v :
  (∀ a b, a ≠ b → (0 < cmp a b)%Z ∨ (0 < cmp b a)%Z) → told_apart cmp v.
Proof.
  intros Htotal.
  induction v as [| | | | |items IH|fields IH|json IH|e] using value_nested_ind;
    try done.
  - by apply told_apart_arr.
  - apply told_apart_obj. split; [| done]. intros a b _ _. apply Htotal.
Qed.

(** *** Hooks are expanded before anything is sorted *)

Lemma expand_hooks_obj fields :
  expand_hooks (VObj fields) =
  VObj (map (λ e, (fst e, expand_hooks (snd e))) fields).
Proof.
  simpl. f_equal. induction fields as [|[k x] r IH]; [done |]. simpl. by rewrite IH.
Qed.

(** *** The clone of a value without a [toJSON] data property *)

Lemma sequence_Normal {A} (l : list (completion A)) :
  Forall (λ c, ∃ a, c = Normal a) l → ∃ r, sequence l = Normal r.
Proof.
  induction 1 as [|c l [a ->] _ [r IH]]; simpl; [by eexists |].
  rewrite IH. by eexists.
Qed.

Lemma sequence_entries_Normal {A} (l : list (string * completion A)) :
  Forall (λ e, ∃ a, snd e = Normal a) l → ∃ r, sequence_entries l = Normal r.
Proof.
  induction 1 as [|[k c] l [a Ha] _ [r IH]]; simpl in *; [by eexists |].
  rewrite Ha, IH. by eexists.
Qed.

Lemma deep_clone_and_sort_Normal P v :
  no_toJSON_property v = true → ∃ c, deep_clone_and_sort P v = Normal c.
Proof.
  induction v as [| | | | |items IH|fields IH|json IH|e]
    using value_nested_ind; intros Hv; try (by eexists).
  - simpl in Hv. rewrite forallb_forall in Hv.
    destruct (sequence_Normal (map (deep_clone_and_sort P) items)) as [r Hr].
    { apply Forall_fmap, Forall_forall. intros x Hx. simpl.
      apply (proj1 (Forall_forall _ _) IH x Hx), Hv. by apply list_elem_of_In. }
    simpl. rewrite Hr. by eexists.
  - simpl in Hv. apply andb_prop in Hv as [Hk Hv].
    apply negb_true_iff in Hk. rewrite forallb_forall in Hv.
    rewrite deep_clone_and_sort_obj, Hk.
    destruct (sequence_entries_Normal
      (sort_entries (localeCompare P) (clone_entries P fields))) as [r Hr].
    { rewrite sort_entries_Permutation. unfold clone_entries.
      apply Forall_fmap, Forall_forall. intros e He. simpl.
      apply (proj1 (Forall_forall _ _) IH e He), Hv. by apply list_elem_of_In. }
    rewrite Hr. by eexists.
  - simpl in *. by apply IH.
Qed.

Lemma sequence_Forall2 {A B} (f : A → completion B) l r :
  sequence (map f l) = Normal r → Forall2 (λ x y, f x = Normal y) l r.
Proof.
  revert r. induction l as [|x l IH]; intros r; simpl.
  - intros [= <-]. constructor.
  - destruct (f x) as [y|] eqn:Hx; simpl; [| done].
    destruct (sequence (map f l)) as [r'|] eqn:Hs; simpl; [| done].
    intros [= <-]. constructor; [done | by apply IH].
Qed.

(** *** The comparison of the sample engine orders any two keys *)

Lemma String_compare_Gt_trans a b c :
  String.compare a b = Gt → String.compare b c = Gt → String.compare a c = Gt.
Proof.
  revert b c. induction a as [|x a IH]; intros [|y b] [|z c]; simpl; try done.
  unfold Ascii.compare.
  destruct (N.compare_spec (Ascii.N_of_ascii x) (Ascii.N_of_ascii y)) as [Hxy|Hxy|Hxy];
    try done;
    destruct (N.compare_spec (Ascii.N_of_ascii y) (Ascii.N_of_ascii z)) as [Hyz|Hyz|Hyz];
    try done; intros H1 H2.
  - rewrite Hxy, Hyz, N.compare_refl. by apply (IH b c).
  - rewrite Hxy. by apply N.compare_gt_iff in Hyz as ->.
  - rewrite <- Hyz. by apply N.compare_gt_iff in Hxy as ->.
  - assert (Hxz : (Ascii.N_of_ascii z < Ascii.N_of_ascii x)%N) by lia.
    by apply N.compare_gt_iff in Hxz as ->.
Qed.

Lemma bytewise_compare_Gt a b :
  (0 < bytewise_compare a b)%Z ↔ String.compare a b = Gt.
Proof. unfold bytewise_compare. destruct (String.compare a b); split; (done || lia). Qed.

Lemma bytewise_compare_collation : collation bytewise_compare.
Proof.
  split.
  - intros a b. rewrite !bytewise_compare_Gt. rewrite (String.compare_antisym a b).
    by destruct (String.compare b a).
  - intros a b c. rewrite !bytewise_compare_Gt. apply String_compare_Gt_trans.
Qed.

Lemma bytewise_compare_apart a b :
  a ≠ b → (0 < bytewise_compare a b)%Z ∨ (0 < bytewise_compare b a)%Z.
Proof.
  intros Hab. rewrite !bytewise_compare_Gt. rewrite (String.compare_antisym a b).
  destruct (String.compare b a) eqn:Hc; simpl; auto.
  apply String.compare_eq_iff in Hc. congruence.
Qed.

(** The comparison that ignores DEL is a collation all the same. *)
Lemma collating_compare_collation : collation collating_compare.
Proof.
  split; unfold collating_compare.
  - intros a b. apply (cmp_asym _ bytewise_compare_collation).
  - intros a b c. apply (cmp_trans _ bytewise_compare_collation).
Qed.

(** *** C8 *)

(** C8, as the claim states it, fails on the code. The keys are sorted
    with [localeCompare], which returns [0] for two different keys when
    the collation of the engine does not tell them apart (a key with a
    DEL and the same key without it); the sort then leaves the two in the
    order of insertion. The two values below have the same two properties
    and are written with different strings, and [is_equal] returns
    [false] on them. *)
Theorem stable_json_stringify_equal_keys_differ :
  key_order_equiv equal_keys_a equal_keys_b ∧
  distinct_keys equal_keys_a ∧
  no_toJSON_property equal_keys_a = true ∧
  collation (localeCompare collating_engine) ∧
  localeCompare collating_engine ("a" +:+ del) "a" = 0%Z ∧
  localeCompare collating_engine "a" ("a" +:+ del) = 0%Z ∧
  stable_json_stringify collating_engine equal_keys_a true =
    Normal ("{" +:+ quote +:+ "a" +:+ del +:+ quote +:+ ":1," +:+
            quote +:+ "a" +:+ quote +:+ ":2}") ∧
  stable_json_stringify collating_engine equal_keys_b true =
    Normal ("{" +:+ quote +:+ "a" +:+ quote +:+ ":2," +:+
            quote +:+ "a" +:+ del +:+ quote +:+ ":1}") ∧
  stable_json_stringify collating_engine equal_keys_a true ≠
    stable_json_stringify collating_engine equal_keys_b true ∧
  is_equal collating_engine equal_keys_a equal_keys_b = Normal false.
Proof.
  split; [apply koe_obj, koe_fields_swap |].
  split.
  { simpl. split; [| done]. apply (bool_decide_unpack _). vm_compute. exact I. }
  split; [reflexivity |]. split; [apply collating_compare_collation |].
  split; [reflexivity |]. split; [reflexivity |].
  split; [vm_compute; reflexivity |]. split; [vm_compute; reflexivity |].
  split; [vm_compute; discriminate | vm_compute; reflexivity].
Qed.

Lemma sample_a_b_equiv : key_order_equiv sample_a sample_b.
Proof.
  unfold sample_a, sample_b. apply koe_obj.
  set (l := VArr [VNum 2; VNum 1; VObj [("k", VNull); ("j", VBool true)]]).
  set (l' := VArr [VNum 2; VNum 1; VObj [("j", VBool true); ("k", VNull)]]).
  set (w := VHook (VObj [("t", VNum 5); ("s", VNum 6)])).
  set (w' := VHook (VObj [("s", VNum 6); ("t", VNum 5)])).
  set (e := VError {| message := "boom"; stack := None |}).
  assert (Hl : key_order_equiv l l').
  { apply koe_arr. repeat (constructor; try apply koe_num). }
  assert (Hw : key_order_equiv w w').
  { apply koe_hook, koe_obj. apply koe_fields_swap. }
  (* the values first, then [err] to the front and [name] behind [list] *)
  apply koe_fields_trans with [("name", VStr "x"); ("list", l'); ("when", w'); ("err", e)].
  { repeat (apply koe_fields_skip; [first [exact Hl | exact Hw | apply key_order_equiv_refl] |]).
    apply koe_fields_nil. }
  apply koe_fields_trans with [("name", VStr "x"); ("list", l'); ("err", e); ("when", w')].
  { do 2 (apply koe_fields_skip; [apply key_order_equiv_refl |]). apply koe_fields_swap. }
  apply koe_fields_trans with [("name", VStr "x"); ("err", e); ("list", l'); ("when", w')].
  { apply koe_fields_skip; [apply key_order_equiv_refl |]. apply koe_fields_swap. }
  apply koe_fields_trans with [("err", e); ("name", VStr "x"); ("list", l'); ("when", w')].
  { apply koe_fields_swap. }
  apply koe_fields_skip; [apply key_order_equiv_refl |]. apply koe_fields_swap.
Qed.

(** ** ensure_error *)



(** ** The shell-call harness *)

Ltac bind_lift := unfold mbind at 1, M_bind, lift at 1.
Ltac bind_emit := unfold mbind at 1, M_bind, emit at 1, lift at 1.
Ltac bind_catch := unfold mbind at 1, M_bind, try_catch at 1.

Lemma assert_equal_same P a msg :
  (∃ c, deep_clone_and_sort P a = Normal c) → assert_equal P a a msg = Normal tt.
Proof.
  intros [c Hc]. unfold assert_equal, is_equal, stable_json_stringify.
  rewrite Hc. simpl. by rewrite String.eqb_refl.
Qed.

(** A payload with a property to read is not [null], so that its other
    properties can be read. *)
Lemma get_prop_Normal P data k v k' :
  get_prop P data k = Normal v → ∃ v', get_prop P data k' = Normal v'.
Proof. destruct data; simpl; try done; by eexists. Qed.

(** The loop calls [process] on every input, in order, whatever the calls
    do, and pushes one result per input. *)
Lemma process_inputs_run {B} P (f : Phases B) b inputs results log :
  process_inputs P f b inputs results log =
  (log ++ map (Called_process b) inputs,
   Normal (results ++
           map (λ input,
                  match process f b input with
                  | Normal value => Ok value
                  | Throw e => Err (error_message P e)
                  end) inputs)).
Proof.
  revert results log. induction inputs as [|input rest IH]; intros results log.
  - simpl. by rewrite !app_nil_r.
  - simpl. bind_catch. unfold call_process.
    unfold mbind at 2, M_bind, mbind, M_bind, emit, lift. simpl.
    destruct (process f b input) as [value|e]; simpl;
      rewrite IH; by rewrite <- !app_assoc.
Qed.

(** The three phases on a well-formed invocation, in closed form. *)
Lemma shell_call_results_well_formed {B} P (f : Phases B) s data inputs :
  JSON_parse P s = Normal data →
  get_prop P data "inputs" = Normal (VArr inputs) →
  ∃ before_input after_input,
    get_prop P data "before" = Normal before_input ∧
    get_prop P data "after" = Normal after_input ∧
    shell_call_results P [s] f [] =
    let before_output := before f before_input in
    let value := match before_output with Normal b => Some b | Throw _ => None end in
    (Called_before before_input ::
       match before_output with
       | Normal b => map (Called_process b) inputs
       | Throw _ => []
       end ++ [Called_after value after_input],
     Normal
       (match after f value after_input with
        | Normal _ =>
            match before_output with
            | Throw e => map (λ _, Err (error_message P e)) inputs
            | Normal b =>
                map (λ input,
                       match process f b input with
                       | Normal value => Ok value
                       | Throw e => Err (error_message P e)
                       end) inputs
            end
        | Throw e => map (λ _, Err (error_message P e)) inputs
        end)).
Proof.
  intros Hparse Hinputs.
  destruct (get_prop_Normal P data "inputs" _ "before" Hinputs) as [xb Hb].
  destruct (get_prop_Normal P data "inputs" _ "after" Hinputs) as [xa Ha].
  exists xb, xa. split; [done |]. split; [done |].
  unfold shell_call_results. simpl length. simpl Z.of_nat.
  rewrite (assert_equal_same P (VNum 1)) by (by eexists).
  simpl default. rewrite Hparse.
  bind_lift. bind_lift. bind_catch.
  rewrite Hb. bind_lift. unfold mbind at 1, M_bind, call_before.
  bind_emit. simpl app.
  destruct (before f xb) as [b|e]; simpl.
  - bind_lift. rewrite Hinputs. simpl. bind_lift.
    unfold mbind at 1, M_bind. rewrite process_inputs_run. simpl app.
    unfold try_catch. bind_lift. rewrite Ha.
    unfold mbind at 1, M_bind, call_after. bind_emit.
    destruct (after f (Some b) xa) as [[]|e2]; simpl; by rewrite <- ?app_assoc.
  - bind_lift. rewrite Hinputs. simpl. bind_lift.
    unfold mbind at 1, M_bind, mret at 1, M_ret.
    unfold try_catch. bind_lift. rewrite Ha.
    unfold mbind at 1, M_bind, call_after. bind_emit.
    destruct (after f None xa) as [[]|e2]; simpl; done.
Qed.

(** [on_shell_call] writes the results of the three phases. *)
Lemma on_shell_call_writes {B} P (f : Phases B) args log results :
  shell_call_results P args f [] = (log, Normal results) →
  on_shell_call P args f [] = write_results P results log.
Proof. intros H. unfold on_shell_call. unfold mbind at 1, M_bind. by rewrite H. Qed.

(** [on_shell_call] throws what the checks throw. *)
Lemma on_shell_call_throws {B} P (f : Phases B) args log e :
  shell_call_results P args f [] = (log, Throw e) →
  on_shell_call P args f [] = (log, Throw e).
Proof. intros H. unfold on_shell_call. unfold mbind at 1, M_bind. by rewrite H. Qed.

(** [on_shell_call] with the results of the three phases: the encoded
    results are written and the process exits, unless the results cannot
    be encoded. *)
Lemma on_shell_call_written {B} P (f : Phases B) args log results :
  shell_call_results P args f [] = (log, Normal results) →
  on_shell_call P args f [] =
  match stable_json_stringify P (VArr (map Errorneous_value results)) true with
  | Normal text =>
      (log ++ [Stdout_write (json_output_token +:+ text); Exited], Normal tt)
  | Throw e => (log, Throw e)
  end.
Proof.
  intros H. rewrite (on_shell_call_writes P f args log results H).
  unfold write_results.
  destruct (stable_json_stringify P _ true) as [text|e]; simpl; [| done].
  bind_lift. unfold mbind at 1, M_bind, emit. by rewrite <- app_assoc.
Qed.

(** The message the results carry for a thrown value. *)
Lemma error_message_thrown P e :
  error_message P e =
  match e with
  | VError err => if decide (message err = "") then "Unknown error" else message err
  | _ => to_string P (if truthy e then e else VStr "Unknown error")
  end.
Proof.
  destruct e as [| | b | n | s | items | fields | json | err];
    unfold error_message, ensure_error; simpl; try done.
  - by destruct b.
  - by destruct (n =? 0)%Z.
  - by destruct (String.eqb s "").
  - destruct (String.eqb_spec (message err) "") as [Hm|Hm]; simpl.
    + by rewrite decide_True.
    + by rewrite decide_False.
Qed.

(** The clone of an error result. *)
Lemma deep_clone_and_sort_Err P m :
  deep_clone_and_sort P (Errorneous_value (Err m)) =
  Normal (Object_assign P
    (sort_entries (localeCompare P) [("is_error", VBool true); ("error", VStr m)])).
Proof.
  unfold Errorneous_value. rewrite deep_clone_and_sort_obj. simpl.
  by destruct (0 <? localeCompare P "is_error" "error")%Z.
Qed.

(** The text written when every result is the same error. *)
Lemma stable_json_stringify_errors {A} P m (inputs : list A) :
  stable_json_stringify P
    (VArr (map Errorneous_value (map (λ _, Err m) inputs))) true =
  Normal (JSON_stringify P
    (VArr (map (λ _, Object_assign P
                  (sort_entries (localeCompare P)
                     [("is_error", VBool true); ("error", VStr m)])) inputs))
    (Some 2)).
Proof.
  unfold stable_json_stringify.
  assert (Hs : sequence (map (deep_clone_and_sort P)
                 (map Errorneous_value (map (λ _, Err m) inputs))) =
    Normal (map (λ _, Object_assign P
                  (sort_entries (localeCompare P)
                     [("is_error", VBool true); ("error", VStr m)])) inputs)).
  { induction inputs as [|x r IH]; [done |].
    cbn [map sequence]. rewrite deep_clone_and_sort_Err, IH. done. }
  cbn [deep_clone_and_sort]. by rewrite Hs.
Qed.

(** The text written is the rendering of an array with one entry for each
    result. *)
Lemma stable_json_stringify_array P items text :
  stable_json_stringify P (VArr items) true = Normal text →
  ∃ entries,
    length entries = length items ∧ text = JSON_stringify P (VArr entries) (Some 2).
Proof.
  unfold stable_json_stringify. cbn [deep_clone_and_sort].
  destruct (sequence (map (deep_clone_and_sort P) items)) as [r|] eqn:Hs;
    simpl; [| done].
  intros [= <-]. exists r. split; [| done].
  apply sequence_Forall2 in Hs. symmetry. by apply Forall2_length in Hs.
Qed.

(** Results whose values have no data property [toJSON] can be encoded. *)
Lemma results_encodable P (results : list (Errorneous value)) :
  Forall (λ r, match r with
               | Ok value => no_toJSON_property value = true
               | Err _ => True
               end) results →
  ∃ text, stable_json_stringify P (VArr (map Errorneous_value results)) true
          = Normal text.
Proof.
  intros Hall.
  destruct (deep_clone_and_sort_Normal P (VArr (map Errorneous_value results)))
    as [c Hc].
  { simpl. apply forallb_forall. intros v Hv.
    apply list_elem_of_In, list_elem_of_fmap in Hv as (r & -> & Hr).
    apply (proj1 (Forall_forall _ _) Hall) in Hr.
    destruct r as [m|value]; simpl; [done |]. by rewrite Hr. }
  unfold stable_json_stringify. rewrite Hc. by eexists.
Qed.

(** When the results can be encoded, they are written after the token and
    the process exits. *)
Lemma write_results_Normal {B} P results s (log : list (event B)) :
  stable_json_stringify P (VArr (map Errorneous_value results)) true = Normal s →
  write_results P results log =
  (log ++ [Stdout_write (json_output_token +:+ s); Exited], Normal tt).
Proof.
  intros Hs. unfold write_results. rewrite Hs. simpl.
  bind_lift. unfold mbind at 1, M_bind, emit. by rewrite <- app_assoc.
Qed.

Lemma stdout_writes_process {B} (b : B) inputs :
  stdout_writes (map (Called_process b) inputs) = [].
Proof. induction inputs as [|x r IH]; [done | apply IH]. Qed.

Lemma after_calls_process {B} (b : B) inputs :
  after_calls (map (Called_process b) inputs) = [].
Proof. induction inputs as [|x r IH]; [done | apply IH]. Qed.

Lemma process_calls_process {B} (b : B) inputs :
  process_calls (map (Called_process b) inputs) = map (pair b) inputs.
Proof.
  induction inputs as [|x r IH]; [done |].
  change (process_calls (map (Called_process b) (x :: r)))
    with ((b, x) :: process_calls (map (Called_process b) r)).
  by rewrite IH.
Qed.

Lemma stdout_writes_run {B} xb (l : list (event B)) v xa :
  stdout_writes l = [] →
  stdout_writes (Called_before xb :: l ++ [Called_after v xa]) = [].
Proof. intros H. unfold stdout_writes in *. simpl. by rewrite omap_app, H. Qed.

Lemma after_calls_run {B} xb (l : list (event B)) v xa :
  after_calls l = [] →
  after_calls (Called_before xb :: l ++ [Called_after v xa]) = [(v, xa)].
Proof. intros H. unfold after_calls in *. simpl. by rewrite omap_app, H. Qed.

Lemma process_calls_run {B} xb (l : list (event B)) v xa :
  process_calls (Called_before xb :: l ++ [Called_after v xa]) = process_calls l.
Proof. unfold process_calls. simpl. rewrite omap_app. simpl. apply app_nil_r. Qed.












(** C5, as the code has it. The check of [inputs] comes after the before
    phase. For every invocation with one argument that decodes to a value
    whose [inputs] is not an array, the call throws and nothing is written;
    [process] and [after] are never called; [before] has been called once,
    unless the payload is [null] and has no properties to read. *)
Theorem on_shell_call_inputs_not_array {B} P (f : Phases B) args s data :
  args = [s] →
  JSON_parse P s = Normal data →
  (∀ items, get_prop P data "inputs" ≠ Normal (VArr items)) →
  ∃ e,
    on_shell_call P args f [] =
    (match get_prop P data "before" with
     | Normal before_input => [Called_before before_input]
     | Throw _ => []
     end, Throw e).
Proof.
  intros -> Hparse Hinputs.
  assert (∃ e, shell_call_results P [s] f [] =
    (match get_prop P data "before" with
     | Normal before_input => [Called_before before_input]
     | Throw _ => []
     end, Throw e)) as [e He]; [| exists e; by apply on_shell_call_throws].
  unfold shell_call_results. simpl length. simpl Z.of_nat.
  rewrite (assert_equal_same P (VNum 1)) by (by eexists).
  simpl default. rewrite Hparse.
  bind_lift. bind_lift. bind_catch.
  destruct (get_prop P data "before") as [xb|eb] eqn:Hb.
  - bind_lift. unfold mbind at 1, M_bind, call_before. bind_emit. simpl app.
    destruct (get_prop_Normal P data "before" _ "inputs" Hb) as [v Hv].
    assert (Hv' : Array_isArray v = false).
    { destruct v; try done. by destruct (Hinputs items). }
    destruct (before f xb) as [b|e]; simpl;
      bind_lift; rewrite Hv; simpl; bind_lift;
      unfold assert; rewrite Hv'; simpl; by eexists.
  - assert (Hthrow : ∃ e, get_prop P data "inputs" = Throw e).
    { destruct data; try done; simpl; by eexists. }
    destruct Hthrow as [e He]. simpl. bind_lift. rewrite He. by eexists.
Qed.

Lemma on_shell_call_inputs_not_array_witness :
  ∃ e,
    on_shell_call sample_engine [render malformed_payload]
      (sample_phases false false) [] =
    (match get_prop sample_engine malformed_payload "before" with
     | Normal before_input => [Called_before before_input]
     | Throw _ => []
     end, Throw e).
Proof.
  apply (on_shell_call_inputs_not_array sample_engine (sample_phases false false)
           [render malformed_payload] (render malformed_payload) malformed_payload);
    try reflexivity.
  intros items. discriminate.
Defined.

(** C5, as the claim states it, fails: [inputs] is a number, and [before]
    has been called by the time the call throws. *)
Lemma before_called_on_malformed_inputs :
  JSON_parse sample_engine (render malformed_payload) = Normal malformed_payload ∧
  get_prop sample_engine malformed_payload "inputs" = Normal (VNum 3) ∧
  Array_isArray (VNum 3) = false ∧
  on_shell_call sample_engine [render malformed_payload]
    (sample_phases false false) [] =
    ([Called_before VNull],
     Throw (VError {| message := "inputs should be an array"; stack := None |})) ∧
  before_calls
    (fst (on_shell_call sample_engine [render malformed_payload]
            (sample_phases false false) []))
    ≠ [].
Proof. repeat (split; [reflexivity |]). discriminate. Qed.

(** ** The worker pool *)

Section pool_facts.
Context {T R : Type} (tasks : list T) (process : T → completion R).

Lemma pending_from_elem (ps : list (promise R)) k w :
  w ∈ pending_from k ps → ∃ j o, k ≤ w ∧ ps !! (w - k) = Some (Pending j o).
Proof.
  revert k. induction ps as [|p ps IH]; intros k; simpl.
  - by intros ?%elem_of_nil.
  - intros Hw.
    assert (Hrest : w ∈ pending_from (S k) ps →
      ∃ j o, k ≤ w ∧ (p :: ps) !! (w - k) = Some (Pending j o)).
    { intros H. destruct (IH _ H) as (j & o & Hle & Hl).
      exists j, o. split; [lia |].
      replace (w - k) with (S (w - S k)) by lia. done. }
    destruct p as [j o| |e]; [| by apply Hrest | by apply Hrest].
    apply elem_of_cons in Hw as [-> | Hw]; [| by apply Hrest].
    exists j, o. split; [lia |]. by rewrite Nat.sub_diag.
Qed.

Lemma await_all_None (ps : list (promise R)) k :
  await_all ps = None → pending_from k ps ≠ [].
Proof.
  revert k. induction ps as [|[j o| |e] ps IH]; intros k; simpl; try done.
  apply IH.
Qed.

Lemma await_all_Normal (ps : list (promise R)) u :
  await_all ps = Some (Normal u) → ∀ w p, ps !! w = Some p → p = Fulfilled.
Proof.
  induction ps as [|[j o| |e] ps IH]; simpl; try done.
  intros H [|w] p; simpl; [by intros [= <-] | by apply IH].
Qed.

Lemma await_all_Throw (ps : list (promise R)) e :
  await_all ps = Some (Throw e) → ∃ w, ps !! w = Some (Rejected e).
Proof.
  induction ps as [|[j o| |e'] ps IH]; simpl; try done.
  - intros H. destruct (IH H) as [w Hw]. by exists (S w).
  - intros [= ->]. by exists 0.
Qed.

(** The number of suspended workers when one of them moves on. *)
Lemma pending_from_insert (ps : list (promise R)) k w j o p :
  ps !! w = Some (Pending j o) →
  length (pending_from k (<[w := p]> ps)) + 1 =
  length (pending_from k ps) + match p with Pending _ _ => 1 | _ => 0 end.
Proof.
  revert k w. induction ps as [|q ps IH]; intros k [|w]; simpl; try done.
  - intros [= ->]. destruct p; simpl; lia.
  - intros Hw. specialize (IH (S k) w Hw).
    destruct q as [j' o'| |e']; simpl; lia.
Qed.

Lemma pending_from_snoc (ps : list (promise R)) k p :
  length (pending_from k (ps ++ [p])) =
  length (pending_from k ps) + match p with Pending _ _ => 1 | _ => 0 end.
Proof.
  revert k. induction ps as [|q ps IH]; intros k; simpl.
  - destruct p; simpl; lia.
  - destruct q; simpl; rewrite IH; lia.
Qed.

(** Pushing the promise of a new worker. *)
Lemma lookup_snoc_Some (ps : list (promise R)) p w q :
  (ps ++ [p]) !! w = Some q → ps !! w = Some q ∨ (w = length ps ∧ q = p).
Proof.
  intros H. apply lookup_app_Some in H as [H | [Hle H]]; [by left |].
  right. destruct (w - length ps) as [|k] eqn:E; simpl in H; [| done].
  injection H as <-. split; [lia | done].
Qed.

Lemma spawn_inv workers_count st :
  pool_inv tasks process st →
  pool_inv tasks process (spawn tasks process workers_count st) ∧
  length (pool_promises (spawn tasks process workers_count st)) =
    length (pool_promises st) + workers_count.
Proof.
  revert st. induction workers_count as [|n IH]; intros st Hinv.
  { simpl. split; [done | lia]. }
  simpl. unfold worker. destruct Hinv as [Hi Hinvoked Hclaimed Hpending Hful Hrej Hmeas].
  destruct (tasks !! pool_i st) as [task|] eqn:Htask.
  - match goal with |- context [spawn _ _ n ?st'] => destruct (IH st') as [IH1 IH2] end.
    2: { split; [done |]. rewrite IH2. simpl. rewrite length_app. simpl. lia. }
    split; simpl.
    + by apply lookup_lt_Some in Htask.
    + rewrite Hinvoked. symmetry. apply (seq_S (pool_i st) 0).
    + intros j t Hj Ht. destruct (decide (j = pool_i st)) as [-> | Hne].
      * right. left. exists (length (pool_promises st)).
        rewrite Htask in Ht. injection Ht as <-.
        by rewrite lookup_app_r, Nat.sub_diag.
      * destruct (Hclaimed j t) as [Hd | [[w Hw] | (w & e & Hw)]]; [lia | done | | | ].
        -- by left.
        -- right. left. exists w. by apply lookup_app_l_Some.
        -- right. right. exists w, e. by apply lookup_app_l_Some.
    + intros w j o Hw. apply lookup_snoc_Some in Hw as [Hw | [_ [= -> ->]]].
      * by apply (Hpending w).
      * by exists task.
    + intros w Hw. apply lookup_snoc_Some in Hw as [Hw | [_ ?]]; [| done].
      apply Hful in Hw. apply lookup_lt_Some in Htask. lia.
    + intros w e Hw. apply lookup_snoc_Some in Hw as [Hw | [_ ?]]; [| done].
      by apply (Hrej w).
    + rewrite pending_from_snoc. lia.
  - match goal with |- context [spawn _ _ n ?st'] => destruct (IH st') as [IH1 IH2] end.
    2: { split; [done |]. rewrite IH2. simpl. rewrite length_app. simpl. lia. }
    split; simpl; try done.
    + intros j t Hj Ht.
      destruct (Hclaimed j t) as [Hd | [[w Hw] | (w & e & Hw)]]; [lia | done | | | ].
      * by left.
      * right. left. exists w. by apply lookup_app_l_Some.
      * right. right. exists w, e. by apply lookup_app_l_Some.
    + intros w j o Hw. apply lookup_snoc_Some in Hw as [Hw | [_ ?]]; [| done].
      by apply (Hpending w).
    + intros _ _. apply lookup_ge_None in Htask. lia.
    + intros w e Hw. apply lookup_snoc_Some in Hw as [Hw | [_ ?]]; [| done].
      by apply (Hrej w).
    + rewrite pending_from_snoc. lia.
Qed.

(** Where a promise is after worker [w] moved on. *)
Lemma lookup_insert_Some_promise (ps : list (promise R)) w p w' q :
  <[w := p]> ps !! w' = Some q →
  (w' = w ∧ q = p) ∨ (w' ≠ w ∧ ps !! w' = Some q).
Proof.
  intros H. destruct (decide (w' = w)) as [-> | Hne].
  - left. split; [done |].
    assert (w < length ps).
    { apply lookup_lt_Some in H. by rewrite length_insert in H. }
    rewrite list_lookup_insert_eq in H by done. congruence.
  - right. split; [done |]. by rewrite list_lookup_insert_ne in H.
Qed.

Lemma settle_inv w st j o :
  pool_inv tasks process st →
  pool_promises st !! w = Some (Pending j o) →
  pool_inv tasks process (settle tasks process w st) ∧
  length (pool_promises (settle tasks process w st)) = length (pool_promises st) ∧
  (length tasks - pool_i (settle tasks process w st)) +
    length (pending_from 0 (pool_promises (settle tasks process w st))) <
  (length tasks - pool_i st) + length (pending_from 0 (pool_promises st)).
Proof.
  intros [Hi Hinvoked Hclaimed Hpending Hful Hrej Hmeas] Hw.
  pose proof (lookup_lt_Some _ _ _ Hw) as Hwlt.
  destruct (Hpending w j o Hw) as (tj & Htj & ->).
  assert (Hpos : 0 < length (pending_from 0 (pool_promises st))).
  { pose proof (pending_from_insert (pool_promises st) 0 w j (process tj) Fulfilled Hw).
    simpl in *. lia. }
  unfold settle. rewrite Hw. destruct (process tj) as [r|e] eqn:Hr.
  - unfold worker. simpl. destruct (tasks !! pool_i st) as [task|] eqn:Htask; simpl.
    + (* the worker claims the next task *)
      pose proof (lookup_lt_Some _ _ _ Htask) as Hlt.
      split; [split; simpl |].
      * lia.
      * rewrite Hinvoked. symmetry. apply (seq_S (pool_i st) 0).
      * intros j' t Hj' Ht. destruct (decide (j' = pool_i st)) as [-> | Hne].
        { right. left. exists w. rewrite Htask in Ht. injection Ht as <-.
          by apply list_lookup_insert_eq. }
        destruct (decide (j' = j)) as [-> | Hnej].
        { left. exists r. rewrite Htj in Ht. injection Ht as <-.
          split; [done | apply lookup_insert_eq]. }
        destruct (Hclaimed j' t) as [(r' & Hd & Hres) | [[w' Hw'] | (w' & e & Hw')]];
          [lia | done | | |].
        -- left. exists r'. split; [done |]. by rewrite lookup_insert_ne.
        -- right. left. exists w'. rewrite list_lookup_insert_ne; [done |].
           intros ->. rewrite Hw in Hw'. congruence.
        -- right. right. exists w', e. rewrite list_lookup_insert_ne; [done |].
           intros ->. rewrite Hw in Hw'. congruence.
      * intros w' j' o' Hw'.
        apply lookup_insert_Some_promise in Hw' as [[-> [= -> ->]] | [_ Hw']].
        -- by exists task.
        -- by apply (Hpending w').
      * intros w' Hw'.
        apply lookup_insert_Some_promise in Hw' as [[_ ?] | [_ Hw']]; [done |].
        apply Hful in Hw'. lia.
      * intros w' e Hw'.
        apply lookup_insert_Some_promise in Hw' as [[_ ?] | [_ Hw']]; [done |].
        by apply (Hrej w').
      * pose proof (pending_from_insert (pool_promises st) 0 w j (Normal r)
                      (Pending (pool_i st) (process task)) Hw). simpl in *. lia.
      * split; [by rewrite length_insert |].
        pose proof (pending_from_insert (pool_promises st) 0 w j (Normal r)
                      (Pending (pool_i st) (process task)) Hw). simpl in *. lia.
    + (* no task is left: the worker returns *)
      pose proof (proj1 (lookup_ge_None _ _) Htask) as Hge.
      split; [split; simpl; try done |].
      * intros j' t Hj' Ht.
        destruct (decide (j' = j)) as [-> | Hnej].
        { left. exists r. rewrite Htj in Ht. injection Ht as <-.
          split; [done | apply lookup_insert_eq]. }
        destruct (Hclaimed j' t) as [(r' & Hd & Hres) | [[w' Hw'] | (w' & e & Hw')]];
          [lia | done | | |].
        -- left. exists r'. split; [done |]. by rewrite lookup_insert_ne.
        -- right. left. exists w'. rewrite list_lookup_insert_ne; [done |].
           intros ->. rewrite Hw in Hw'. congruence.
        -- right. right. exists w', e. rewrite list_lookup_insert_ne; [done |].
           intros ->. rewrite Hw in Hw'. congruence.
      * intros w' j' o' Hw'.
        apply lookup_insert_Some_promise in Hw' as [[_ ?] | [_ Hw']]; [done |].
        by apply (Hpending w').
      * intros _ _. lia.
      * intros w' e Hw'.
        apply lookup_insert_Some_promise in Hw' as [[_ ?] | [_ Hw']]; [done |].
        by apply (Hrej w').
      * pose proof (pending_from_insert (pool_promises st) 0 w j (Normal r)
                      Fulfilled Hw). simpl in *. lia.
      * split; [by rewrite length_insert |].
        pose proof (pending_from_insert (pool_promises st) 0 w j (Normal r)
                      Fulfilled Hw). simpl in *. lia.
  - (* the call failed: the worker throws *)
    split; [split; simpl; try done |].
    + intros j' t Hj' Ht.
      destruct (Hclaimed j' t) as [(r' & Hd & Hres) | [[w' Hw'] | (w' & e' & Hw')]];
        [lia | done | | |].
      * left. by exists r'.
      * destruct (decide (w' = w)) as [-> | Hne].
        -- right. right. exists w, e. by apply list_lookup_insert_eq.
        -- right. left. exists w'. by rewrite list_lookup_insert_ne.
      * right. right. exists w', e'. rewrite list_lookup_insert_ne; [done |].
        intros ->. rewrite Hw in Hw'. congruence.
    + intros w' j' o' Hw'.
      apply lookup_insert_Some_promise in Hw' as [[_ ?] | [_ Hw']]; [done |].
      by apply (Hpending w').
    + intros w' Hw'.
      apply lookup_insert_Some_promise in Hw' as [[_ ?] | [_ Hw']]; [done |].
      by apply (Hful w').
    + intros w' e' Hw'.
      apply lookup_insert_Some_promise in Hw' as [[_ [= ->]] | [_ Hw']].
      * exists tj. split; [| done]. by apply list_elem_of_lookup_2 in Htj.
      * by apply (Hrej w').
    + pose proof (pending_from_insert (pool_promises st) 0 w j (Throw e)
                    (Rejected e) Hw). simpl in *. lia.
    + simpl. split; [by rewrite length_insert |].
      pose proof (pending_from_insert (pool_promises st) 0 w j (Throw e)
                    (Rejected e) Hw). simpl in *. lia.
Qed.

Lemma pool_inv_init :
  pool_inv tasks process
    {| pool_results := ∅; pool_i := 0; pool_promises := []; pool_invoked := [] |}.
Proof. split; simpl; try done; intros; lia. Qed.

Lemma worker_i st :
  pool_i st ≤ length tasks →
  pool_i (worker tasks process st).1 = Nat.min (S (pool_i st)) (length tasks).
Proof.
  intros Hi. unfold worker.
  destruct (tasks !! pool_i st) as [task|] eqn:Ht; cbn [fst pool_i].
  - apply lookup_lt_Some in Ht. lia.
  - apply lookup_ge_None in Ht. lia.
Qed.

(** The workers claim the first tasks as they are started. *)
Lemma spawn_i workers_count st :
  pool_i st ≤ length tasks →
  pool_i (spawn tasks process workers_count st) =
  Nat.min (pool_i st + workers_count) (length tasks).
Proof.
  revert st. induction workers_count as [|n IH]; intros st Hi; cbn [spawn]; [lia |].
  pose proof (worker_i st Hi) as Hw.
  destruct (worker tasks process st) as [st' p]. cbn [fst] in Hw.
  rewrite IH; cbn [pool_i]; lia.
Qed.

(** A call of [process] is never taken back. *)
Lemma settle_invoked w st :
  length (pool_invoked st) ≤ length (pool_invoked (settle tasks process w st)).
Proof.
  unfold settle. destruct (pool_promises st !! w) as [[j [r|e]| |e]|]; simpl; try done.
  unfold worker. simpl. destruct (tasks !! pool_i st); simpl; [| done].
  rewrite length_app. lia.
Qed.

Lemma rejections_elem (ps : list (promise R)) e :
  e ∈ rejections ps ↔ ∃ w, ps !! w = Some (Rejected e).
Proof.
  unfold rejections. rewrite list_elem_of_omap. split.
  - intros (p & Hp & He). destruct p as [j o| |e']; try done.
    injection He as ->. by apply list_elem_of_lookup_1.
  - intros [w Hw]. exists (Rejected e). split; [| done].
    by apply list_elem_of_lookup_2 in Hw.
Qed.

(** Under any schedule the run comes to its end within the fuel, in a
    state that satisfies the invariant: the caller's loop is through, or
    a worker the caller does not yet wait for has thrown. *)
Lemma run_finishes sched fuel t st :
  pool_inv tasks process st →
  (length tasks - pool_i st) + length (pending_from 0 (pool_promises st)) ≤ fuel →
  ∃ st',
    pool_inv tasks process st' ∧
    length (pool_promises st') = length (pool_promises st) ∧
    length (pool_invoked st) ≤ length (pool_invoked st') ∧
    (await_all (pool_promises st') = None → rejections (pool_promises st') ≠ []) ∧
    run tasks process sched fuel t st = finish tasks st'.
Proof.
  revert t st. induction fuel as [|fuel IH]; intros t st Hinv Hfuel.
  - destruct (await_all (pool_promises st)) as [c|] eqn:Ha.
    + exists st. split; [done |]. split; [done |]. split; [done |].
      split; [by rewrite Ha |].
      unfold finish. simpl. by rewrite Ha.
    + apply (await_all_None _ 0) in Ha.
      destruct (pending_from 0 (pool_promises st)); [done | simpl in Hfuel; lia].
  - destruct (await_all (pool_promises st)) as [c|] eqn:Ha.
    + exists st. split; [done |]. split; [done |]. split; [done |].
      split; [by rewrite Ha |].
      unfold finish. simpl. by rewrite Ha.
    + assert (Hstep : ∃ st',
        pool_inv tasks process st' ∧
        length (pool_promises st') = length (pool_promises st) ∧
        length (pool_invoked st) ≤ length (pool_invoked st') ∧
        (await_all (pool_promises st') = None →
           rejections (pool_promises st') ≠ []) ∧
        match pending_from 0 (pool_promises st)
                !! (next_settled sched t mod length (pending_from 0 (pool_promises st)))
        with
        | Some w => run tasks process sched fuel (S t) (settle tasks process w st)
        | None => None
        end = finish tasks st').
      { pose proof (await_all_None _ 0 Ha) as Hne.
        set (pending := pending_from 0 (pool_promises st)) in *.
        assert (Hlt : next_settled sched t mod length pending < length pending).
        { apply Nat.mod_upper_bound. by destruct pending. }
        destruct (lookup_lt_is_Some_2 _ _ Hlt) as [w Hw]. rewrite Hw.
        apply list_elem_of_lookup_2, pending_from_elem in Hw as (j & o & _ & Hw).
        rewrite Nat.sub_0_r in Hw.
        destruct (settle_inv w st j o Hinv Hw) as (Hinv' & Hlen & Hdec).
        destruct (IH (S t) (settle tasks process w st) Hinv')
          as (st' & ? & ? & ? & ? & ?).
        { fold pending in Hdec. lia. }
        exists st'. split; [done |]. split; [congruence |].
        pose proof (settle_invoked w st). split; [lia |]. by split. }
      simpl. rewrite Ha.
      destruct (rejections (pool_promises st)) as [|e es] eqn:Hr; [exact Hstep |].
      destruct (turn_ends sched t); [| exact Hstep].
      exists st. split; [done |]. split; [done |]. split; [done |].
      split; [by rewrite Hr |].
      unfold finish. by rewrite Ha, Hr.
Qed.

(** The run [execute_async] makes, reduced to its last state. *)
Lemma execute_async_finishes workers_count sched :
  ∃ st,
    pool_inv tasks process st ∧
    length (pool_promises st) = workers_count ∧
    Nat.min workers_count (length tasks) ≤ pool_i st ∧
    (await_all (pool_promises st) = None → rejections (pool_promises st) ≠ []) ∧
    execute_async tasks process workers_count sched = finish tasks st.
Proof.
  destruct (spawn_inv workers_count _ pool_inv_init) as [Hinv Hlen].
  simpl in Hlen. unfold execute_async.
  match goal with |- context [run _ _ _ _ _ ?st0] => set (st0' := st0) in * end.
  destruct (run_finishes sched (S (length tasks)) 0 st0' Hinv)
    as (st & Hinv' & ? & Hmono & ? & ?).
  { pose proof (inv_i _ _ _ Hinv). pose proof (inv_measure _ _ _ Hinv). lia. }
  exists st. split; [done |]. split; [congruence |]. split; [| by split].
  rewrite (inv_invoked _ _ _ Hinv), (inv_invoked _ _ _ Hinv'), !length_seq in Hmono.
  subst st0'. rewrite spawn_i in Hmono; simpl in *; lia.
Qed.

(** When the caller's loop is through and no worker has thrown, every
    worker has returned and every task is done. *)
Lemma all_fulfilled_done st u :
  pool_inv tasks process st →
  0 < length (pool_promises st) →
  await_all (pool_promises st) = Some (Normal u) →
  pool_i st = length tasks ∧
  ∀ j t, tasks !! j = Some t →
    ∃ r, process t = Normal r ∧ pool_results st !! j = Some r.
Proof.
  intros Hinv Hlen Ha.
  pose proof (await_all_Normal _ _ Ha) as Hall.
  assert (Hi : pool_i st = length tasks).
  { destruct (pool_promises st) as [|p ps] eqn:Hps; [simpl in Hlen; lia |].
    apply (inv_fulfilled _ _ _ Hinv 0). rewrite Hps. simpl.
    f_equal. by apply (Hall 0). }
  split; [done |]. intros j t Ht.
  destruct (inv_claimed _ _ _ Hinv j t) as [Hd | [[w Hw] | (w & e & Hw)]]; [| done | done | |].
  - rewrite Hi. by apply lookup_lt_Some in Ht.
  - by apply Hall in Hw.
  - by apply Hall in Hw.
Qed.

End pool_facts.

(** C6. For every task list, every number of workers [W >= 1], every
    [process] that succeeds on all tasks, and every order in which the
    calls settle, [execute_async] returns, for each index, the result of
    [process] on the task at that index, in the order of the tasks (for no
    task, no result); [process] is called once per task, in index order. *)
Theorem execute_async_ordered {T R} (tasks : list T) (f : T → R)
    (process : T → completion R) (workers_count : nat) (sched : schedule) :
  1 ≤ workers_count →
  (∀ t, t ∈ tasks → process t = Normal (f t)) →
  execute_async tasks process workers_count sched =
  Some (Settled (Normal (map (λ t, Some (f t)) tasks)), seq 0 (length tasks)).
Proof.
  intros HW Hok.
  destruct (execute_async_finishes tasks process workers_count sched)
    as (st & Hinv & Hlen & _ & Hne & ->).
  assert (Hnone : ∀ w e, pool_promises st !! w ≠ Some (Rejected e)).
  { intros w e Hw. destruct (inv_rejected _ _ _ Hinv w e Hw) as (t & Ht & He).
    rewrite (Hok t Ht) in He. done. }
  unfold finish. destruct (await_all (pool_promises st)) as [[u|e]|] eqn:Ha.
  - destruct (all_fulfilled_done tasks process st u Hinv) as [Hi Hdone]; [lia | done |].
    rewrite (inv_invoked _ _ _ Hinv), Hi. do 4 f_equal.
    apply list_eq. intros k. rewrite list_lookup_imap, list_lookup_fmap.
    destruct (tasks !! k) as [t|] eqn:Ht; simpl; [| done].
    destruct (Hdone k t Ht) as (r & Hr & ->).
    rewrite (Hok t) in Hr by (by apply list_elem_of_lookup_2 in Ht). congruence.
  - apply await_all_Throw in Ha as [w Hw]. by destruct (Hnone w e).
  - destruct (rejections (pool_promises st)) as [|e es] eqn:Hr; [by destruct Hne |].
    assert (He : e ∈ rejections (pool_promises st)) by (rewrite Hr; by left).
    apply rejections_elem in He as [w Hw]. by destruct (Hnone w e).
Qed.

Lemma execute_async_ordered_witness :
  execute_async [1; 2; 3; 4; 5]%Z square 2 second_first =
  Some (Settled (Normal [Some 1; Some 4; Some 9; Some 16; Some 25]%Z),
        [0; 1; 2; 3; 4]).
Proof.
  apply (execute_async_ordered [1; 2; 3; 4; 5]%Z (λ x, (x * x)%Z) square 2 second_first).
  - lia.
  - reflexivity.
Defined.

(** C7, as the claim states it, fails on the code. The caller awaits the
    promises of the workers one after the other: while it waits for the
    first worker, whose call for task 0 is still pending, the second
    worker takes the tasks 1, 2 and 3 and throws on the last; its promise
    is rejected with no handler attached, and the process ends with the
    turn. The call neither throws nor returns. It throws when the failing
    worker is the one awaited, or when the caller reaches its promise
    within the turn. *)
Theorem execute_async_unhandled_rejection :
  square_but_4 4%Z = Throw (VStr "four") ∧
  execute_async [1; 2; 3; 4; 5]%Z square_but_4 2 second_first =
    Some (Unhandled_rejection [VStr "four"], [0; 1; 2; 3]) ∧
  execute_async [1; 2; 3; 4; 5]%Z square_but_4 2 first_first =
    Some (Settled (Throw (VStr "four")), [0; 1; 2; 3]) ∧
  execute_async [1; 2; 3; 4; 5]%Z square_but_4 2 one_turn =
    Some (Settled (Throw (VStr "four")), [0; 1; 2; 3; 4]).
Proof. repeat split; vm_compute; reflexivity. Qed.

(** C10. With no worker, [execute_async] returns at once, whatever the
    tasks: as many results as tasks, each of them [undefined], and
    [process] is never called. *)
Theorem execute_async_no_workers {T R} (tasks : list T)
    (process : T → completion R) (sched : schedule) :
  execute_async tasks process 0 sched =
  Some (Settled (Normal (replicate (length tasks) None)), []).
Proof.
  unfold execute_async. simpl. do 4 f_equal.
  apply list_eq. intros k. rewrite list_lookup_imap.
  destruct (tasks !! k) as [t|] eqn:Ht; simpl.
  - rewrite lookup_empty. symmetry. apply lookup_replicate_2.
    by apply lookup_lt_Some in Ht.
  - symmetry. apply lookup_replicate_None. by apply lookup_ge_None in Ht.
Qed.

(** ** The scenarios of the specification, run on the sample engine *)

Example sort_entries_by_key :
  sort_entries bytewise_compare [("b", 1); ("c", 2); ("a", 3)] =
  [("a", 3); ("b", 1); ("c", 2)].
Proof. reflexivity. Qed.

Example clone_sorts_nested_keys :
  deep_clone_and_sort (sample_platform [])
    (VObj [("b", VNum 1); ("a", VArr [VObj [("z", VNull); ("y", VBool true)]])]) =
  Normal (VObj [("a", VArr [VObj [("y", VBool true); ("z", VNull)]]); ("b", VNum 1)]).
Proof. reflexivity. Qed.

Example clone_throws_on_toJSON_data :
  deep_clone_and_sort (sample_platform []) (VObj [("toJSON", VNum 1)]) =
  Throw (VError {| message := "obj.toJSON is not a function"; stack := None |}).
Proof. reflexivity. Qed.

Example scenario_before_throws :
  shell_call_results sample_engine [render sample_payload]
    (sample_phases true false) [] =
  ([Called_before VNull; Called_after None VNull],
   Normal [Err "boom"; Err "boom"; Err "boom"]).
Proof. vm_compute. reflexivity. Qed.

Example scenario_item_throws :
  shell_call_results sample_engine [render sample_payload]
    (sample_phases false false) [] =
  ([Called_before VNull;
    Called_process 7%Z (VNum 1); Called_process 7%Z (VNum 2);
    Called_process 7%Z (VNum 3);
    Called_after (Some 7%Z) VNull],
   Normal [Ok (VNum 2); Ok (VNum 4); Err "bad item"]).
Proof. vm_compute. reflexivity. Qed.

Example scenario_after_throws :
  shell_call_results sample_engine [render sample_payload]
    (sample_phases false true) [] =
  ([Called_before VNull;
    Called_process 7%Z (VNum 1); Called_process 7%Z (VNum 2);
    Called_process 7%Z (VNum 3);
    Called_after (Some 7%Z) VNull],
   Normal [Err "teardown fail"; Err "teardown fail"; Err "teardown fail"]).
Proof. vm_compute. reflexivity. Qed.

Example scenario_written_once :
  stdout_writes
    (fst (on_shell_call sample_engine [render sample_payload]
            (sample_phases false false) [])) =
  [json_output_token +:+
   render (VArr [VObj [("is_error", VBool false); ("value", VNum 2)];
                 VObj [("is_error", VBool false); ("value", VNum 4)];
                 VObj [("error", VStr "bad item"); ("is_error", VBool true)]])].
Proof. vm_compute. reflexivity. Qed.

Example scenario_two_arguments :
  on_shell_call sample_engine [render sample_payload; render sample_payload]
    (sample_phases false false) [] =
  ([], Throw (VError {| message := "only one argument expected"; stack := None |})).
Proof. vm_compute. reflexivity. Qed.

Example scenario_null_payload :
  on_shell_call (sample_platform [("null", VNull)]) ["null"]
    (sample_phases false false) [] =
  ([], Throw (VError {| message := "Cannot read properties of null (reading 'inputs')";
                        stack := None |})).
Proof. vm_compute. reflexivity. Qed.

Example pool_first_worker_first :
  execute_async [1; 2; 3; 4; 5]%Z square 2 first_first =
  Some (Settled (Normal [Some 1; Some 4; Some 9; Some 16; Some 25]%Z),
        [0; 1; 2; 3; 4]).
Proof. vm_compute. reflexivity. Qed.

Example pool_more_workers_than_tasks :
  execute_async [1; 2]%Z square 7 one_turn =
  Some (Settled (Normal [Some 1; Some 4]%Z), [0; 1]).
Proof. vm_compute. reflexivity. Qed.

Example pool_failure_stops_the_call :
  execute_async [1; 2; 3; 4; 5]%Z square_but_4 2 first_first =
  Some (Settled (Throw (VStr "four")), [0; 1; 2; 3]).
Proof. vm_compute. reflexivity. Qed.

Example ensure_error_of_string :
  ensure_error (sample_platform []) (VStr "boom") default_message =
  ({| message := "boom"; stack := None |}, VStr "boom").
Proof. reflexivity. Qed.

Example ensure_error_of_undefined :
  ensure_error (sample_platform []) VUndefined default_message =
  ({| message := "Unknown error"; stack := None |}, VUndefined).
Proof. reflexivity. Qed.

Example pool_no_tasks :
  execute_async ([] : list Z) square 3 second_first =
  Some (Settled (Normal []), []).
Proof. reflexivity. Qed.

Example scenario_result_not_encodable :
  on_shell_call sample_engine [render sample_payload] toJSON_phases [] =
  ([Called_before VNull;
    Called_process 7%Z (VNum 1); Called_process 7%Z (VNum 2);
    Called_process 7%Z (VNum 3);
    Called_after (Some 7%Z) VNull],
   Throw (VError {| message := "obj.toJSON is not a function"; stack := None |})).
Proof. vm_compute. reflexivity. Qed.

Example scenario_before_throws_error :
  stdout_writes
    (fst (on_shell_call sample_engine [render sample_payload]
            (failing_phases (Some {| message := "boom"; stack := None |}) None) [])) =
  [json_output_token +:+
   render (VArr [VObj [("error", VStr "boom"); ("is_error", VBool true)];
                 VObj [("error", VStr "boom"); ("is_error", VBool true)];
                 VObj [("error", VStr "boom"); ("is_error", VBool true)]])].
Proof. vm_compute. reflexivity. Qed.

(** * Further properties *)

(** ** is_equal, assert.equal and the errors of the clone *)

(** X1. When the comparison of keys is a collation that tells the keys of
    every object of [a] apart, [stable_json_stringify] returns the same
    string for [a] and for every value that differs from it by the order
    of keys only; [is_equal] does not see that order, and [assert.equal]
    lets the two values pass. *)
Theorem is_equal_key_order (P : Platform) (a b : value) (msg : string) :
  collation (localeCompare P) →
  distinct_keys a →
  told_apart (localeCompare P) a →
  no_toJSON_property a = true →
  key_order_equiv a b →
  (∃ s, stable_json_stringify P a true = Normal s ∧
        stable_json_stringify P b true = Normal s) ∧
  is_equal P a b = Normal true ∧ assert_equal P a b msg = Normal tt.
Proof.
  intros Hcmp Hd Ht Hn Hab.
  pose proof (proj1 (deep_clone_and_sort_koe P Hcmp) a b Hab Hd Ht) as Hclone.
  destruct (deep_clone_and_sort_Normal P a Hn) as [c Hc].
  assert (Heq : is_equal P a b = Normal true).
  { unfold is_equal, stable_json_stringify. rewrite <- Hclone, Hc. simpl.
    by rewrite String.eqb_refl. }
  split.
  { unfold stable_json_stringify. rewrite <- Hclone, Hc. by eexists. }
  split; [done |]. unfold assert_equal. by rewrite Heq.
Qed.

Lemma is_equal_key_order_witness :
  (∃ s, stable_json_stringify (sample_platform []) sample_a true = Normal s ∧
        stable_json_stringify (sample_platform []) sample_b true = Normal s) ∧
  is_equal (sample_platform []) sample_a sample_b = Normal true ∧
  assert_equal (sample_platform []) sample_a sample_b "same" = Normal tt.
Proof.
  refine (is_equal_key_order (sample_platform []) sample_a sample_b "same"
            bytewise_compare_collation _ _ _ sample_a_b_equiv).
  - simpl. repeat split; apply (bool_decide_unpack _); vm_compute; exact I.
  - apply told_apart_total, bytewise_compare_apart.
  - vm_compute. reflexivity.
Defined.

(** X25. A value with a hook is expanded by the hook before anything is
    sorted, at every depth: the clone of a value is the clone of the value
    in which every object with a [toJSON] is replaced by what the call
    returns and every [Error] by its message and stack, and no hook is
    left in that value. *)
Theorem deep_clone_and_sort_expands_hooks (P : Platform) (v : value) :
  deep_clone_and_sort P v = deep_clone_and_sort P (expand_hooks v) ∧
  hook_free (expand_hooks v) = true.
Proof.
  split.
  - induction v as [| | | | |items IH|fields IH|json IH|e] using value_nested_ind;
      try done.
    + simpl. do 2 f_equal. rewrite <- list_fmap_compose.
      by apply Forall_fmap_ext_1.
    + rewrite expand_hooks_obj, !deep_clone_and_sort_obj.
      assert (Hk : has_key "toJSON" (map (λ e, (fst e, expand_hooks (snd e))) fields)
                   = has_key "toJSON" fields).
      { apply has_key_Permutation. by rewrite <- list_fmap_compose. }
      rewrite Hk. destruct (has_key "toJSON" fields); [done |].
      do 3 f_equal. unfold clone_entries. rewrite <- list_fmap_compose.
      apply Forall_fmap_ext_1. eapply Forall_impl; [exact IH |].
      intros [k x] Hx. simpl in *. by rewrite Hx.
    + apply deep_clone_and_sort_error.
  - induction v as [| | | | |items IH|fields IH|json IH|e] using value_nested_ind;
      try done.
    + simpl. rewrite forallb_forall. intros x Hx.
      apply list_elem_of_In, list_elem_of_fmap in Hx as (y & -> & Hy).
      by apply (proj1 (Forall_forall _ _) IH y).
    + rewrite expand_hooks_obj. simpl. rewrite forallb_forall. intros x Hx.
      apply list_elem_of_In, list_elem_of_fmap in Hx as (y & -> & Hy). simpl.
      by apply (proj1 (Forall_forall _ _) IH y).
    + simpl. by destruct (stack e).
Qed.

Lemma sequence_Throw {A} (l : list (completion A)) e :
  Forall (λ c, (∃ a, c = Normal a) ∨ c = Throw e) l →
  Exists (λ c, c = Throw e) l →
  sequence l = Throw e.
Proof.
  induction 1 as [|c l Hc Hl IH]; intros Hex; [by apply Exists_nil in Hex |].
  simpl. destruct Hc as [[a ->] | ->]; [| done]. simpl.
  apply Exists_cons in Hex as [Hex | Hex]; [done |]. by rewrite (IH Hex).
Qed.

Lemma sequence_entries_Throw {A} (l : list (string * completion A)) e :
  Forall (λ x, (∃ a, snd x = Normal a) ∨ snd x = Throw e) l →
  Exists (λ x, snd x = Throw e) l →
  sequence_entries l = Throw e.
Proof.
  induction 1 as [|[k c] l Hc Hl IH]; intros Hex; [by apply Exists_nil in Hex |].
  simpl in *. destruct Hc as [[a ->] | ->]; [| done]. simpl.
  apply Exists_cons in Hex as [Hex | Hex]; [done |]. by rewrite (IH Hex).
Qed.

Lemma forallb_false_Exists {A} (f : A → bool) l :
  forallb f l = false → Exists (λ x, f x = false) l.
Proof.
  induction l as [|x l IH]; simpl; [done |].
  destruct (f x) eqn:Hx; simpl; [| by left]. intros H. right. by apply IH.
Qed.

Lemma Forall_Exists_both {A} (Q1 Q2 : A → Prop) l :
  Forall Q1 l → Exists Q2 l → Exists (λ x, Q1 x ∧ Q2 x) l.
Proof.
  induction 1 as [|x l H1 Hl IH]; intros Hex; [by apply Exists_nil in Hex |].
  apply Exists_cons in Hex as [H2 | Hex]; [by left | right; by apply IH].
Qed.

(** X2. The clone throws exactly when a plain object, at any depth, has a data
    property [toJSON]; what it throws is always the same TypeError. *)
Theorem deep_clone_and_sort_outcome (P : Platform) (v : value) :
  if no_toJSON_property v
  then ∃ c, deep_clone_and_sort P v = Normal c
  else deep_clone_and_sort P v =
       Throw (VError (new_Error P "obj.toJSON is not a function")).
Proof.
  set (E := VError (new_Error P "obj.toJSON is not a function")).
  induction v as [| | | | |items IH|fields IH|json IH|e]
    using value_nested_ind; try (simpl; by eexists).
  - destruct (no_toJSON_property (VArr items)) eqn:Hn;
      [by apply deep_clone_and_sort_Normal |].
    simpl in *. rewrite (sequence_Throw _ E); [done | |].
    + apply Forall_fmap. eapply Forall_impl; [exact IH |]. simpl. intros x Hx.
      destruct (no_toJSON_property x); [by left | by right].
    + apply Exists_fmap. apply forallb_false_Exists in Hn.
      eapply Exists_impl; [exact (Forall_Exists_both _ _ _ IH Hn) |].
      simpl. intros x [Hx Hf]. by rewrite Hf in Hx.
  - destruct (no_toJSON_property (VObj fields)) eqn:Hn;
      [by apply deep_clone_and_sort_Normal |].
    rewrite deep_clone_and_sort_obj. simpl in Hn.
    destruct (has_key "toJSON" fields); [done |]. simpl in Hn.
    rewrite (sequence_entries_Throw _ E); [done | |].
    + rewrite sort_entries_Permutation. unfold clone_entries.
      apply Forall_fmap. eapply Forall_impl; [exact IH |]. simpl. intros x Hx.
      destruct (no_toJSON_property (snd x)); [by left | by right].
    + rewrite sort_entries_Permutation. unfold clone_entries.
      apply Exists_fmap.
      apply (forallb_false_Exists (λ e, no_toJSON_property (snd e))) in Hn.
      eapply Exists_impl; [exact (Forall_Exists_both _ _ _ IH Hn) |].
      simpl. intros x [Hx Hf]. by rewrite Hf in Hx.
  - simpl in *. exact IH.
Qed.

(** ** The list functions of [base.ts] *)

Section each_facts.
Context {V St : Type}.

Lemma each_from_app i (o1 o2 : list V) (f : V → nat → St → St) s :
  Base.each_from i (o1 ++ o2) f s =
  Base.each_from (i + length o1) o2 f (Base.each_from i o1 f s).
Proof.
  revert i s. induction o1 as [|v o1 IH]; intros i s; simpl.
  - by rewrite Nat.add_0_r.
  - rewrite IH. by rewrite Nat.add_succ_r.
Qed.

Lemma each_snoc (o : list V) v (f : V → nat → St → St) s :
  Base.each (o ++ [v]) f s = f v (length o) (Base.each o f s).
Proof. unfold Base.each. by rewrite each_from_app. Qed.

End each_facts.

(** The elements of a list with their indices, from [i] on. *)
Lemma imap_pair_snoc {V} (l : list V) v :
  imap pair (l ++ [v]) = imap pair l ++ [(length l, v)].
Proof. rewrite imap_app. simpl. by rewrite Nat.add_0_r. Qed.

Lemma reduce_snoc {A V} (o : list V) v (a : A) (f : A → V → nat → A) :
  Base.reduce (o ++ [v]) a f = f (Base.reduce o a f) v (length o).
Proof. unfold Base.reduce. by rewrite each_snoc. Qed.

Lemma flatten_concat {T} (l : list (list T)) : Base.flatten l = concat l.
Proof.
  induction l as [|g l IH] using rev_ind; [done |].
  unfold Base.flatten in *. rewrite reduce_snoc, IH, concat_app. simpl.
  by rewrite app_nil_r.
Qed.

Lemma partition_indexed {V} (l : list V) (f : V → nat → bool) :
  Base.partition l (Base.Splitter_function f) =
  (omap (λ iv, if f (snd iv) (fst iv) then Some (snd iv) else None) (imap pair l),
   omap (λ iv, if f (snd iv) (fst iv) then None else Some (snd iv)) (imap pair l)).
Proof.
  induction l as [|v l IH] using rev_ind; [done |].
  unfold Base.partition in *. rewrite each_snoc, IH, imap_pair_snoc, !omap_app.
  simpl. destruct (f v (length l)); simpl; by rewrite ?app_nil_r.
Qed.

Lemma omap_imap_pair_value {V} (q : V → bool) (l : list V) :
  omap (λ iv : nat * V, if q (snd iv) then Some (snd iv) else None) (imap pair l)
  = List.filter q l.
Proof.
  induction l as [|v l IH] using rev_ind; [done |].
  rewrite imap_pair_snoc, omap_app, List.filter_app, IH. simpl.
  by destruct (q v).
Qed.

(** X3. [partition] with a function of the value: the elements that satisfy
    it and those that do not, each in the order of the list; [reject]
    gives the second. *)
Theorem partition_by_value {V} (l : list V) (q : V → bool) :
  Base.partition l (Base.Splitter_function (λ v _, q v)) =
    (List.filter q l, List.filter (λ v, negb (q v)) l) ∧
  Base.reject l (Base.Splitter_function (λ v _, q v)) =
    List.filter (λ v, negb (q v)) l.
Proof.
  assert (H : Base.partition l (Base.Splitter_function (λ v _, q v)) =
    (List.filter q l, List.filter (λ v, negb (q v)) l)).
  { rewrite partition_indexed. f_equal.
    - apply omap_imap_pair_value.
    - rewrite <- (omap_imap_pair_value (λ v, negb (q v))).
      apply list_omap_ext, Forall2_same_length_lookup. split; [done |].
      intros i x y Hx Hy. rewrite Hx in Hy. injection Hy as <-.
      by destruct (q (snd x)). }
  split; [done |]. unfold Base.reject. by rewrite H.
Qed.

Lemma split_Permutation {A B} (c : A → bool) (g : A → B) (l : list A) :
  omap (λ x, if c x then Some (g x) else None) l ++
  omap (λ x, if c x then None else Some (g x)) l ≡ₚ map g l.
Proof.
  induction l as [|x l IH]; [done |]. simpl. destruct (c x); simpl.
  - by rewrite IH.
  - rewrite <- Permutation_middle. by rewrite IH.
Qed.

Lemma map_snd_imap_pair {V} (l : list V) : map snd (imap pair l) = l.
Proof.
  induction l as [|v l IH] using rev_ind; [done |].
  by rewrite imap_pair_snoc, map_app, IH.
Qed.

(** X4. [pick] and [reject] with a list of keys split the list by the index:
    [pick] gives the elements whose index is among the keys, [reject] the
    others, both in the order of the list, whatever the order of the keys;
    together they hold every element once. *)
Theorem pick_reject_by_keys {V} (l : list V) (keys : list Z) :
  Base.pick l keys =
    omap (λ iv, if Base.includes keys (fst iv) then Some (snd iv) else None)
      (imap pair l) ∧
  Base.reject l (Base.Splitter_keys keys) =
    omap (λ iv, if Base.includes keys (fst iv) then None else Some (snd iv))
      (imap pair l) ∧
  Base.pick l keys ++ Base.reject l (Base.Splitter_keys keys) ≡ₚ l.
Proof.
  assert (H1 : Base.pick l keys =
    omap (λ iv, if Base.includes keys (fst iv) then Some (snd iv) else None)
      (imap pair l)).
  { unfold Base.pick. by rewrite partition_indexed. }
  assert (H2 : Base.reject l (Base.Splitter_keys keys) =
    omap (λ iv, if Base.includes keys (fst iv) then None else Some (snd iv))
      (imap pair l)).
  { unfold Base.reject.
    change (Base.partition l (Base.Splitter_keys keys))
      with (Base.partition l (Base.Splitter_function (λ _ i, Base.includes keys i))).
    by rewrite partition_indexed. }
  split; [done |]. split; [done |]. rewrite H1, H2.
  rewrite (split_Permutation (λ iv : nat * V, Base.includes keys (fst iv)) snd).
  by rewrite map_snd_imap_pair.
Qed.

(** X5. [skip_undefined] drops the elements that are [undefined] and, with
    them, the elements that are [false]; the others stay, in order. *)
Theorem skip_undefined_filter (l : list value) :
  Base.skip_undefined l =
  List.filter
    (λ v, match v with VUndefined | VBool false => false | _ => true end) l.
Proof.
  induction l as [|v l IH] using rev_ind; [done |].
  unfold Base.skip_undefined, Base.filter_map in *.
  rewrite each_snoc, IH, List.filter_app. simpl.
  destruct v as [| |[|]| | | | | |]; simpl; by rewrite ?app_nil_r.
Qed.

(** *** unique *)

(** The elements of a list that are the first with their key. *)
Lemma first_occurrences_snoc {V K} `{EqDecision K} (key : V → K) (l : list V) v :
  omap (λ iv, if bool_decide (key (snd iv) ∈ map key (take (fst iv) (l ++ [v])))
              then None else Some (snd iv)) (imap pair (l ++ [v])) =
  omap (λ iv, if bool_decide (key (snd iv) ∈ map key (take (fst iv) l))
              then None else Some (snd iv)) (imap pair l) ++
  (if bool_decide (key v ∈ map key l) then [] else [v]).
Proof.
  rewrite imap_pair_snoc, omap_app. f_equal.
  - apply list_omap_ext, Forall2_same_length_lookup. split; [done |].
    intros i x y Hx Hy. rewrite Hx in Hy. injection Hy as <-.
    apply list_lookup_imap_Some in Hx as (w & Hw & ->). simpl.
    apply lookup_lt_Some in Hw. by rewrite take_app_le by lia.
  - simpl. rewrite take_app_length. by case_bool_decide.
Qed.

Section unique_facts.
Context {V : Type} (to_key : V → Base.Set_key).

Lemma unique_filter_keys set (l : list V) v :
  v ∈ Base.unique_filter to_key set l → (to_key v ∉ set) ∧ v ∈ l.
Proof.
  revert set. induction l as [|x l IH]; intros set; simpl.
  - by intros ?%elem_of_nil.
  - case_bool_decide as Hx.
    + intros Hv. destruct (IH _ Hv). split; [done |]. by right.
    + intros [-> | Hv]%elem_of_cons; [split; [done |]; by left |].
      destruct (IH _ Hv) as [Hs Hl]. split; [| by right].
      intros Hin. apply Hs. apply elem_of_app. by left.
Qed.

Lemma unique_filter_NoDup set (l : list V) :
  NoDup (map to_key (Base.unique_filter to_key set l)).
Proof.
  revert set. induction l as [|x l IH]; intros set; simpl; [constructor |].
  case_bool_decide as Hx; [apply IH |]. simpl. apply NoDup_cons. split; [| apply IH].
  intros Hin. apply list_elem_of_fmap in Hin as (y & Hy & Hin).
  apply unique_filter_keys in Hin as [Hs _]. apply Hs.
  apply elem_of_app. right. rewrite Hy. by left.
Qed.

Lemma unique_filter_sublist set (l : list V) :
  sublist (Base.unique_filter to_key set l) l.
Proof.
  revert set. induction l as [|x l IH]; intros set; simpl; [constructor |].
  case_bool_decide; [by apply sublist_cons | by apply sublist_skip].
Qed.

Lemma unique_filter_covers set (l : list V) v :
  v ∈ l → to_key v ∈ set ∨ to_key v ∈ map to_key (Base.unique_filter to_key set l).
Proof.
  revert set. induction l as [|x l IH]; intros set; [by intros ?%elem_of_nil |].
  simpl. intros [-> | Hv]%elem_of_cons.
  - case_bool_decide; [by left |]. right. simpl. by left.
  - case_bool_decide as Hx; [by apply IH |].
    destruct (IH (set ++ [to_key x]) Hv) as [Hin | Hin].
    + apply elem_of_app in Hin as [Hin | Hin]; [by left |].
      apply list_elem_of_singleton in Hin. right. simpl. rewrite Hin. by left.
    + right. simpl. by right.
Qed.

Lemma unique_filter_id set (l : list V) :
  NoDup (map to_key l) → (∀ v, v ∈ l → to_key v ∉ set) →
  Base.unique_filter to_key set l = l.
Proof.
  revert set. induction l as [|x l IH]; intros set Hnd Hset; [done |].
  simpl in *. apply NoDup_cons in Hnd as [Hx Hnd].
  rewrite bool_decide_eq_false_2 by (apply Hset; by left).
  f_equal. apply IH; [done |]. intros v Hv Hin.
  apply elem_of_app in Hin as [Hin | Hin].
  - apply (Hset v); [by right | done].
  - apply list_elem_of_singleton in Hin. apply Hx. rewrite <- Hin.
    apply list_elem_of_fmap. by exists v.
Qed.

Lemma unique_filter_snoc set (l : list V) v :
  Base.unique_filter to_key set (l ++ [v]) =
  Base.unique_filter to_key set l ++
  (if bool_decide (to_key v ∈ set ++ map to_key l) then [] else [v]).
Proof.
  revert set. induction l as [|x l IH]; intros set; simpl.
  - rewrite app_nil_r. by case_bool_decide.
  - case_bool_decide as Hx.
    + rewrite IH. f_equal.
      rewrite (bool_decide_ext (to_key v ∈ set ++ map to_key l)
                 (to_key v ∈ set ++ to_key x :: map to_key l)); [done |].
      rewrite !elem_of_app, elem_of_cons.
      split; [intros [? | ?]; auto |]. intros [? | [-> | ?]]; auto.
    + rewrite IH. simpl. do 2 f_equal.
      rewrite (bool_decide_ext (to_key v ∈ (set ++ [to_key x]) ++ map to_key l)
                 (to_key v ∈ set ++ to_key x :: map to_key l)); [done |].
      by rewrite <- app_assoc.
Qed.

End unique_facts.

(** X6. [unique] keeps the elements that are the first of the list with
    their key, in the order of the list, and drops the others; a key is a
    primitive, compared by value, or an object, compared by reference. So
    the keys of the result are pairwise distinct, the result is a sublist
    of the list, every key of the list is the key of a result, and a
    second pass changes nothing. *)
Theorem unique_first_occurrences {V} (l : list V) (to_key : V → Base.Set_key) :
  Base.unique l to_key =
    omap (λ iv, if bool_decide (to_key (snd iv) ∈ map to_key (take (fst iv) l))
                then None else Some (snd iv)) (imap pair l) ∧
  NoDup (map to_key (Base.unique l to_key)) ∧
  sublist (Base.unique l to_key) l ∧
  (∀ v, v ∈ l → to_key v ∈ map to_key (Base.unique l to_key)) ∧
  Base.unique (Base.unique l to_key) to_key = Base.unique l to_key.
Proof.
  unfold Base.unique. split.
  { induction l as [|v l IH] using rev_ind; [done |].
    by rewrite unique_filter_snoc, first_occurrences_snoc, IH. }
  split; [apply unique_filter_NoDup |].
  split; [apply unique_filter_sublist |]. split.
  - intros v Hv. destruct (unique_filter_covers to_key [] l v Hv) as [Hin | Hin];
      [by apply elem_of_nil in Hin | done].
  - apply unique_filter_id; [apply unique_filter_NoDup |].
    intros v _. apply not_elem_of_nil.
Qed.

(** *** find_index, find_last_index *)

Lemma find_index_from_Some {T} k (l : list T) (p : T → nat → bool) i :
  Base.find_index_from k l p = Some i ↔
  k ≤ i ∧ (∃ v, l !! (i - k) = Some v ∧ p v i = true) ∧
  (∀ j v, k ≤ j → j < i → l !! (j - k) = Some v → p v j = false).
Proof.
  revert k. induction l as [|x l IH]; intros k; simpl.
  - split; [done |]. by intros (_ & (v & Hv & _) & _).
  - destruct (p x k) eqn:Hx.
    + split.
      * intros [= <-]. split; [done |]. split.
        -- exists x. by rewrite Nat.sub_diag.
        -- intros j v ??. lia.
      * intros (Hk & (v & Hv & Hp) & Hsmall).
        destruct (decide (i = k)) as [-> | Hne]; [done |].
        assert (p x k = false); [| congruence].
        apply (Hsmall k x); [lia | lia | by rewrite Nat.sub_diag].
    + rewrite IH. split.
      * intros (Hk & (v & Hv & Hp) & Hsmall). split; [lia |]. split.
        -- exists v. split; [| done].
           replace (i - k) with (S (i - S k)) by lia. done.
        -- intros j v' Hkj Hji Hj.
           destruct (decide (j = k)) as [-> | Hne].
           ++ rewrite Nat.sub_diag in Hj. simpl in Hj. congruence.
           ++ apply (Hsmall j v'); [lia | lia |].
              replace (j - k) with (S (j - S k)) in Hj by lia. done.
      * intros (Hk & (v & Hv & Hp) & Hsmall).
        assert (Hne : i ≠ k).
        { intros ->. rewrite Nat.sub_diag in Hv. simpl in Hv. congruence. }
        split; [lia |]. split.
        -- exists v. split; [| done].
           replace (i - k) with (S (i - S k)) in Hv by lia. done.
        -- intros j v' Hkj Hji Hj. apply (Hsmall j v'); [lia | lia |].
           replace (j - k) with (S (j - S k)) by lia. done.
Qed.

Lemma find_index_from_None {T} k (l : list T) (p : T → nat → bool) :
  Base.find_index_from k l p = None ↔
  ∀ j v, l !! j = Some v → p v (k + j) = false.
Proof.
  revert k. induction l as [|x l IH]; intros k; simpl.
  - split; [by intros _ [|j] v | done].
  - destruct (p x k) eqn:Hx.
    + split; [done |]. intros H. specialize (H 0 x eq_refl).
      rewrite Nat.add_0_r in H. congruence.
    + rewrite IH. split.
      * intros H [|j] v Hj; simpl in Hj.
        -- injection Hj as <-. by rewrite Nat.add_0_r.
        -- rewrite Nat.add_succ_r. by apply (H j v).
      * intros H j v Hj. specialize (H (S j) v Hj).
        by rewrite Nat.add_succ_r in H.
Qed.

(** X7. [find_index] returns the least index at which the predicate holds,
    and [undefined] exactly when it holds at no index. *)
Theorem find_index_least {T} (l : list T) (p : T → nat → bool) :
  (∀ i, Base.find_index l p = Some i ↔
     (∃ v, l !! i = Some v ∧ p v i = true) ∧
     (∀ j v, j < i → l !! j = Some v → p v j = false)) ∧
  (Base.find_index l p = None ↔ ∀ j v, l !! j = Some v → p v j = false).
Proof.
  split.
  - intros i. unfold Base.find_index. rewrite find_index_from_Some.
    rewrite Nat.sub_0_r. split.
    + intros (_ & Hm & Hs). split; [done |]. intros j v Hj Hl.
      apply (Hs j v); [lia | done | by rewrite Nat.sub_0_r].
    + intros (Hm & Hs). split; [lia |]. split; [done |]. intros j v _ Hj Hl.
      rewrite Nat.sub_0_r in Hl. by apply (Hs j v).
  - unfold Base.find_index. by rewrite find_index_from_None.
Qed.

Lemma find_last_index_below_Some {T} b (l : list T) (p : T → nat → bool) i :
  Base.find_last_index_below b l p = Some i ↔
  i < b ∧ (∃ v, l !! i = Some v ∧ p v i = true) ∧
  (∀ j v, i < j → j < b → l !! j = Some v → p v j = false).
Proof.
  induction b as [|b IH]; simpl.
  - split; [done | intros [? _]; lia].
  - destruct (l !! b) as [x|] eqn:Hb; [destruct (p x b) eqn:Hx |].
    + split.
      * intros [= <-]. split; [lia |]. split; [by exists x |]. intros j v ??. lia.
      * intros (Hi & (v & Hv & Hp) & Hlarge).
        destruct (decide (i = b)) as [-> | Hne]; [done |].
        assert (p x b = false); [| congruence]. apply (Hlarge b x); [lia | lia | done].
    + rewrite IH. split.
      * intros (Hi & Hm & Hlarge). split; [lia |]. split; [done |].
        intros j v Hij Hjb Hj. destruct (decide (j = b)) as [-> | Hne].
        -- congruence.
        -- apply (Hlarge j v); [done | lia | done].
      * intros (Hi & (v & Hv & Hp) & Hlarge).
        assert (i ≠ b) by (intros ->; congruence).
        split; [lia |]. split; [by exists v |].
        intros j v' Hij Hjb Hj. apply (Hlarge j v'); [done | lia | done].
    + rewrite IH. split.
      * intros (Hi & Hm & Hlarge). split; [lia |]. split; [done |].
        intros j v Hij Hjb Hj. destruct (decide (j = b)) as [-> | Hne].
        -- congruence.
        -- apply (Hlarge j v); [done | lia | done].
      * intros (Hi & (v & Hv & Hp) & Hlarge).
        assert (i ≠ b) by (intros ->; congruence).
        split; [lia |]. split; [by exists v |].
        intros j v' Hij Hjb Hj. apply (Hlarge j v'); [done | lia | done].
Qed.

Lemma find_last_index_below_None {T} b (l : list T) (p : T → nat → bool) :
  Base.find_last_index_below b l p = None ↔
  ∀ j v, j < b → l !! j = Some v → p v j = false.
Proof.
  induction b as [|b IH]; simpl.
  - split; [intros _ j v ?; lia | done].
  - destruct (l !! b) as [x|] eqn:Hb; [destruct (p x b) eqn:Hx |].
    + split; [done |]. intros H. specialize (H b x). rewrite Hx in H.
      discriminate H; [lia | done].
    + rewrite IH. split.
      * intros H j v Hj Hl. destruct (decide (j = b)) as [-> | Hne];
          [congruence | apply (H j v); [lia | done]].
      * intros H j v Hj Hl. apply (H j v); [lia | done].
    + rewrite IH. split.
      * intros H j v Hj Hl. destruct (decide (j = b)) as [-> | Hne];
          [congruence | apply (H j v); [lia | done]].
      * intros H j v Hj Hl. apply (H j v); [lia | done].
Qed.

(** X8. [find_last_index] returns the greatest index at which the predicate
    holds, and [undefined] exactly when it holds at no index. *)
Theorem find_last_index_greatest {T} (l : list T) (p : T → nat → bool) :
  (∀ i, Base.find_last_index l p = Some i ↔
     (∃ v, l !! i = Some v ∧ p v i = true) ∧
     (∀ j v, i < j → l !! j = Some v → p v j = false)) ∧
  (Base.find_last_index l p = None ↔ ∀ j v, l !! j = Some v → p v j = false).
Proof.
  unfold Base.find_last_index. split.
  - intros i. rewrite find_last_index_below_Some. split.
    + intros (_ & Hm & Hl). split; [done |]. intros j v Hij Hj.
      apply (Hl j v); [done | by apply lookup_lt_Some in Hj | done].
    + intros ((v & Hv & Hp) & Hl). split; [by apply lookup_lt_Some in Hv |].
      split; [by exists v |]. intros j v' Hij _ Hj. by apply (Hl j v').
  - rewrite find_last_index_below_None. split.
    + intros H j v Hj. apply (H j v); [by apply lookup_lt_Some in Hj | done].
    + intros H j v _ Hj. by apply (H j v).
Qed.

(** *** find, has, ensure_find *)

Lemma for_in_find_value k (l : list value) (p : value → value → bool)
    (q : value → bool) :
  (∀ v key, p v key = q v) →
  Base.for_in_find k l p = head (List.filter q l).
Proof.
  intros Hp. revert k. induction l as [|x l IH]; intros k; simpl; [done |].
  rewrite Hp. destruct (q x); [done | apply IH].
Qed.

Lemma find_from_no_match i (rest o : list value) (p : value → value → bool)
    (q : value → bool) :
  (∀ v key, p v key = q v) →
  List.filter q o = [] → List.filter q rest = [] →
  Base.find_from i rest o p = VUndefined.
Proof.
  intros Hp Ho. revert i. induction rest as [|x rest IH]; intros i Hr; simpl; [done |].
  rewrite Hp. simpl in Hr. destruct (q x); [done |].
  rewrite (for_in_find_value 0 o p q Hp), Ho. simpl. by apply IH.
Qed.

(** X9. On an array, with a predicate that does not look at the key, [find]
    returns the first element that satisfies it and [undefined] when
    there is none; [has] says whether the first match is truthy (it is
    false when the first match is [0], [null], [false] or the empty
    string); [ensure_find] returns the first match unless there is none
    or it is [undefined]. *)
Theorem find_first_match (P : Platform) (items : list value)
    (p : value → value → bool) (q : value → bool) (on_error : option string) :
  (∀ v key, p v key = q v) →
  Base.find (VArr items) p = default VUndefined (head (List.filter q items)) ∧
  Base.has (VArr items) p =
    match head (List.filter q items) with
    | Some v => truthy v
    | None => false
    end ∧
  Base.ensure_find P (VArr items) p on_error =
    match head (List.filter q items) with
    | Some VUndefined | None =>
        Throw (VError (new_Error P
          (match on_error with
           | Some text => if truthy (VStr text) then text else "element not found!"
           | None => "element not found!"
           end)))
    | Some v => Normal v
    end.
Proof.
  intros Hp.
  assert (Hfind : Base.find (VArr items) p =
                  default VUndefined (head (List.filter q items))).
  { unfold Base.find. destruct items as [|x r]; [done |].
    cbn [Base.find_from List.filter]. rewrite Hp. destruct (q x) eqn:Hx; [done |].
    rewrite (for_in_find_value 0 (x :: r) p q Hp). simpl. rewrite Hx.
    destruct (List.filter q r) as [|y m] eqn:Hf; [| done]. simpl.
    apply (find_from_no_match 1 r (x :: r) p q Hp); [| done].
    simpl. by rewrite Hx. }
  split; [done |]. unfold Base.has, Base.ensure_find. rewrite Hfind.
  by destruct (head (List.filter q items)) as [[]|].
Qed.

Lemma find_first_match_witness :
  Base.find (VArr [VNum 1; VNum 0; VNum 3])
    (λ v _, match v with VNum 1 => false | _ => true end) = VNum 0 ∧
  Base.has (VArr [VNum 1; VNum 0; VNum 3])
    (λ v _, match v with VNum 1 => false | _ => true end) = false ∧
  Base.ensure_find (sample_platform []) (VArr [VNum 1; VNum 0; VNum 3])
    (λ v _, match v with VNum 1 => false | _ => true end) None = Normal (VNum 0).
Proof.
  apply (find_first_match (sample_platform []) [VNum 1; VNum 0; VNum 3]
           (λ v _, match v with VNum 1 => false | _ => true end)
           (λ v, match v with VNum 1 => false | _ => true end) None).
  reflexivity.
Defined.

(** *** group_by_n *)

Lemma group_by_n_for_spec {V} (l : list V) i j left group :
  i + j ≤ length l →
  Base.group_by_n_for l i j left group =
  (group ++ firstn left (skipn (i + j) l),
   bool_decide (length l < i + j + left)).
Proof.
  revert j group. induction left as [|left IH]; intros j group Hij; simpl.
  - rewrite app_nil_r. f_equal. symmetry. apply bool_decide_eq_false. lia.
  - destruct (l !! (i + j)) as [v|] eqn:Hv.
    + pose proof (lookup_lt_Some _ _ _ Hv) as Hlt.
      rewrite IH by lia. rewrite (drop_S _ _ _ Hv). simpl.
      rewrite <- app_assoc. simpl. f_equal; [by rewrite Nat.add_succ_r |].
      apply bool_decide_ext. lia.
    + apply lookup_ge_None in Hv. rewrite drop_ge by done.
      rewrite app_nil_r. f_equal. symmetry. apply bool_decide_eq_true. lia.
Qed.

Lemma group_by_n_while_spec {V} fuel (l : list V) n i result :
  1 ≤ n → i ≤ length l → length l - i < fuel →
  ∃ groups,
    Base.group_by_n_while fuel l n i result = Some (result ++ groups) ∧
    concat groups = skipn i l ∧
    Forall (λ g, 1 ≤ length g ∧ length g ≤ n) groups ∧
    (∀ k g, groups !! k = Some g → S k < length groups → length g = n) ∧
    length l - i ≤ length groups * n ∧
    length groups * n < length l - i + n.
Proof.
  intros Hn. revert i result. induction fuel as [|fuel IH]; intros i result Hi Hf; [lia |].
  simpl. rewrite (group_by_n_for_spec l i 0 n []) by lia.
  rewrite Nat.add_0_r. simpl.
  destruct (Nat.ltb_spec i (length l)) as [Hlt | Hge].
  - case_bool_decide as Hret.
    + (* the rest is shorter than [n]: it is the last group *)
      exists [skipn i l]. rewrite take_ge by (rewrite length_drop; lia).
      split; [done |]. split; [simpl; by rewrite app_nil_r |].
      split; [constructor; [rewrite length_drop; lia | constructor] |].
      split; [intros [|k] g ? Hk; simpl in *; lia |]. simpl. lia.
    + destruct (IH (i + n) (result ++ [firstn n (skipn i l)])) as
        (groups & Hrun & Hcat & Hsize & Hfull & Hlo & Hhi); [lia | lia |].
      exists (firstn n (skipn i l) :: groups).
      split; [by rewrite Hrun, <- app_assoc |].
      split; [simpl; rewrite Hcat, <- drop_drop; apply take_drop |].
      assert (Hlen : length (firstn n (skipn i l)) = n).
      { rewrite length_take, length_drop. lia. }
      split; [constructor; [lia | done] |].
      split.
      * intros [|k] g Hg Hk; simpl in *; [by injection Hg as <- |].
        apply (Hfull k g Hg). lia.
      * simpl. lia.
  - case_bool_decide as Hret; [| lia].
    exists []. rewrite app_nil_r. split; [done |].
    split; [by rewrite drop_ge by lia |]. split; [constructor |].
    split; [by intros [|k] g |]. simpl. lia.
Qed.

(** X11. For [n >= 1], [group_by_n] returns the list cut into consecutive
    groups: [flatten] gives the list back, no group is empty or longer
    than [n], every group but the last has [n] elements, and there are as
    few groups as that allows. *)
Theorem group_by_n_groups {V} (fuel : nat) (l : list V) (n : nat) :
  1 ≤ n → length l < fuel →
  ∃ groups,
    Base.group_by_n fuel l n = Some groups ∧
    Base.flatten groups = l ∧
    Forall (λ g, 1 ≤ length g ∧ length g ≤ n) groups ∧
    (∀ k g, groups !! k = Some g → S k < length groups → length g = n) ∧
    length l ≤ length groups * n ∧
    length groups * n < length l + n.
Proof.
  intros Hn Hf.
  destruct (group_by_n_while_spec fuel l n 0 [] Hn) as
    (groups & Hrun & Hcat & Hsize & Hfull & Hlo & Hhi); [lia | lia |].
  exists groups. split; [done |]. rewrite flatten_concat.
  split; [done |]. split; [done |]. split; [done |]. lia.
Qed.

Lemma group_by_n_groups_witness :
  ∃ groups,
    Base.group_by_n 4 [1; 2; 3] 2 = Some groups ∧
    Base.flatten groups = [1; 2; 3] ∧
    Forall (λ g, 1 ≤ length g ∧ length g ≤ 2) groups ∧
    (∀ k g, groups !! k = Some g → S k < length groups → length g = 2) ∧
    length [1; 2; 3] ≤ length groups * 2 ∧
    length groups * 2 < length [1; 2; 3] + 2.
Proof.
  apply (group_by_n_groups 4 [1; 2; 3] 2); simpl; lia.
Defined.

(** X12. For [n = 0] the loop of [group_by_n] never returns, whatever the
    list: no number of rounds is enough. *)
Theorem group_by_n_zero {V} (fuel : nat) (l : list V) :
  Base.group_by_n fuel l 0 = None.
Proof.
  unfold Base.group_by_n. generalize (@nil (list V)) at 1. generalize 0 at 2.
  induction fuel as [|fuel IH]; intros i result; [done |].
  simpl. rewrite Nat.add_0_r. apply IH.
Qed.

(** *** take, first, last *)

Lemma Array_slice_first {V} (l : list V) (n : Z) :
  (0 ≤ n)%Z → Base.Array_slice l 0 n = firstn (Z.to_nat n) l.
Proof.
  intros Hn. unfold Base.Array_slice. cbv zeta.
  change (0 <? 0)%Z with false. cbv iota.
  destruct (Z.ltb_spec n 0); [lia |].
  rewrite (Z.min_l 0) by lia. change (Z.to_nat 0) with 0. rewrite drop_0, Z.sub_0_r.
  destruct (Z.min_spec n (Z.of_nat (length l))) as [[? ->] | [? ->]]; [done |].
  rewrite Nat2Z.id. rewrite !take_ge; [done | lia | lia].
Qed.

Lemma Array_slice_last {V} (l : list V) (n : Z) :
  (0 ≤ n ≤ Z.of_nat (length l))%Z →
  Base.Array_slice l (Z.of_nat (length l) - n) (Z.of_nat (length l)) =
  skipn (length l - Z.to_nat n) l.
Proof.
  intros Hn. unfold Base.Array_slice.
  destruct (Z.ltb_spec (Z.of_nat (length l) - n) 0); [lia |].
  destruct (Z.ltb_spec (Z.of_nat (length l)) 0); [lia |].
  rewrite !Z.min_l by lia.
  replace (Z.to_nat (Z.of_nat (length l) - n)) with (length l - Z.to_nat n) by lia.
  apply take_ge. rewrite length_drop. lia.
Qed.

(** X13. For [0 <= n <= length], [first(list, n)] and [last(list, length - n)]
    cut the list in two: the first has [n] elements, is what
    [take(list, n)] gives, and the two put together are the list. *)
Theorem first_last_cut {V} (P : Platform) (l : list V) (n : Z) :
  (0 ≤ n ≤ Z.of_nat (length l))%Z →
  ∃ a b,
    Base.first P l (Some n) = Normal (Base.Many a) ∧
    Base.last P l (Some (Z.of_nat (length l) - n)%Z) = Normal (Base.Many b) ∧
    Base.take l n = a ∧
    length a = Z.to_nat n ∧
    a ++ b = l.
Proof.
  intros Hn. exists (firstn (Z.to_nat n) l), (skipn (Z.to_nat n) l).
  unfold Base.first, Base.last, Base.take.
  destruct (Z.ltb_spec (Z.of_nat (length l)) n); [lia |].
  destruct (Z.ltb_spec (Z.of_nat (length l)) (Z.of_nat (length l) - n)); [lia |].
  rewrite Array_slice_first by lia. rewrite Array_slice_last by lia.
  replace (length l - Z.to_nat (Z.of_nat (length l) - n)) with (Z.to_nat n) by lia.
  split; [done |]. split; [done |]. split; [done |].
  split; [rewrite length_take; lia | apply take_drop].
Qed.

Lemma first_last_cut_witness :
  ∃ a b,
    Base.first (sample_platform []) [1; 2; 3] (Some 1%Z) = Normal (Base.Many a) ∧
    Base.last (sample_platform []) [1; 2; 3]
      (Some (Z.of_nat (length [1; 2; 3]) - 1)%Z) = Normal (Base.Many b) ∧
    Base.take [1; 2; 3] 1 = a ∧
    length a = Z.to_nat 1 ∧
    a ++ b = [1; 2; 3].
Proof.
  apply (first_last_cut (sample_platform []) [1; 2; 3] 1%Z). simpl. lia.
Defined.

(** X14. Asked for more elements than the list has, [first] and [last] throw,
    with the two numbers in the message, while [take] returns the whole
    list. *)
Theorem first_last_too_many {V} (P : Platform) (l : list V) (n : Z) :
  (Z.of_nat (length l) < n)%Z →
  Base.first P l (Some n) =
    Throw (VError (new_Error P
      ("can't get first " +:+ to_string P (VNum n) +:+
       " elements from list of length " +:+
       to_string P (VNum (Z.of_nat (length l)))))) ∧
  Base.last P l (Some n) =
    Throw (VError (new_Error P
      ("can't get last " +:+ to_string P (VNum n) +:+
       " elements from list of length " +:+
       to_string P (VNum (Z.of_nat (length l)))))) ∧
  Base.take l n = l.
Proof.
  intros Hn. unfold Base.first, Base.last, Base.take.
  destruct (Z.ltb_spec (Z.of_nat (length l)) n); [| lia].
  split; [done |]. split; [done |].
  rewrite Array_slice_first by lia. apply take_ge. lia.
Qed.

Lemma first_last_too_many_witness :
  Base.first (sample_platform []) [1; 2; 3] (Some 5%Z) =
    Throw (VError {| message := "can't get first 5 elements from list of length 3";
                     stack := None |}) ∧
  Base.last (sample_platform []) [1; 2; 3] (Some 5%Z) =
    Throw (VError {| message := "can't get last 5 elements from list of length 3";
                     stack := None |}) ∧
  Base.take [1; 2; 3] 5 = [1; 2; 3].
Proof.
  apply (first_last_too_many (sample_platform []) [1; 2; 3] 5%Z). simpl. lia.
Defined.

(** X15. A negative [n] is not refused: [first(list, n)] and [take(list, n)]
    return the list without its last [-n] elements, and [last(list, n)]
    returns the empty list. *)
Theorem first_last_negative {V} (P : Platform) (l : list V) (n : Z) :
  (n < 0)%Z →
  Base.first P l (Some n) =
    Normal (Base.Many (firstn (length l - Z.to_nat (- n)) l)) ∧
  Base.take l n = firstn (length l - Z.to_nat (- n)) l ∧
  Base.last P l (Some n) = Normal (Base.Many []).
Proof.
  intros Hn. unfold Base.first, Base.last, Base.take.
  destruct (Z.ltb_spec (Z.of_nat (length l)) n); [lia |].
  assert (Hslice : Base.Array_slice l 0 n = firstn (length l - Z.to_nat (- n)) l).
  { unfold Base.Array_slice. cbv zeta. change (0 <? 0)%Z with false. cbv iota.
    destruct (Z.ltb_spec n 0); [| lia].
    rewrite (Z.min_l 0) by lia. change (Z.to_nat 0) with 0.
    rewrite drop_0, Z.sub_0_r. f_equal. lia. }
  split; [by rewrite Hslice |]. split; [done |]. do 2 f_equal.
  unfold Base.Array_slice.
  destruct (Z.ltb_spec (Z.of_nat (length l) - n) 0); [lia |].
  destruct (Z.ltb_spec (Z.of_nat (length l)) 0); [lia |].
  rewrite !Z.min_r by lia. by rewrite Z.sub_diag.
Qed.

Lemma first_last_negative_witness :
  Base.first (sample_platform []) [1; 2; 3] (Some (-1)%Z) =
    Normal (Base.Many [1; 2]) ∧
  Base.take [1; 2; 3] (-1) = [1; 2] ∧
  Base.last (sample_platform []) [1; 2; 3] (Some (-1)%Z) = Normal (Base.Many []).
Proof.
  apply (first_last_negative (sample_platform []) [1; 2; 3] (-1)%Z). lia.
Defined.

(** *** group_by *)

Section group_by_facts.
Context {K V : Type} `{EqDecision K}.

Lemma Map_get_None (m : list (K * V)) k :
  Base.Map_get m k = None ↔ k ∉ map fst m.
Proof.
  induction m as [|[k' v] m IH]; simpl.
  - split; [intros _; apply not_elem_of_nil | done].
  - destruct (decide (k' = k)) as [-> | Hne].
    + split; [done |]. intros Hk. destruct Hk. by left.
    + rewrite IH, not_elem_of_cons. split; [by split | by intros [_ ?]].
Qed.

Lemma Map_get_snoc (m : list (K * V)) k' v k :
  Base.Map_get (m ++ [(k', v)]) k =
  match Base.Map_get m k with
  | Some x => Some x
  | None => if decide (k' = k) then Some v else None
  end.
Proof.
  induction m as [|[k0 v0] m IH]; simpl; [done |].
  by destruct (decide (k0 = k)).
Qed.

Lemma Map_get_alter (g : V → V) (m : list (K * V)) k' k :
  Base.Map_get (Base.Map_alter g k' m) k =
  if decide (k' = k) then g <$> Base.Map_get m k else Base.Map_get m k.
Proof.
  induction m as [|[k0 v0] m IH]; simpl; [by destruct (decide (k' = k)) |].
  destruct (decide (k0 = k')) as [-> | Hne]; simpl.
  - destruct (decide (k' = k)); [done |]. done.
  - destruct (decide (k0 = k)) as [-> | Hne2]; [| done].
    by destruct (decide (k' = k)); [congruence |].
Qed.

Lemma Map_alter_keys (g : V → V) (m : list (K * V)) k :
  map fst (Base.Map_alter g k m) = map fst m.
Proof.
  induction m as [|[k0 v0] m IH]; simpl; [done |].
  destruct (decide (k0 = k)); simpl; [done | by rewrite IH].
Qed.

Lemma Map_get_elem_of (m : list (K * V)) k v :
  NoDup (map fst m) → (k, v) ∈ m → Base.Map_get m k = Some v.
Proof.
  induction m as [|[k0 v0] m IH]; simpl; [by intros _ ?%elem_of_nil |].
  intros [Hk0 Hnd]%NoDup_cons [[= -> ->] | Hin]%elem_of_cons.
  - by rewrite decide_True.
  - destruct (decide (k0 = k)) as [-> | Hne]; [| by apply IH].
    destruct Hk0. apply list_elem_of_fmap. by exists (k, v).
Qed.

End group_by_facts.

Lemma Map_alter_concat {K V} `{EqDecision K} (m : list (K * list V)) k v :
  k ∈ map fst m →
  concat (map snd (Base.Map_alter (λ group, group ++ [v]) k m)) ≡ₚ
  concat (map snd m) ++ [v].
Proof.
  induction m as [|[k0 g0] m IH]; simpl; [by intros ?%elem_of_nil |].
  intros Hk. destruct (decide (k0 = k)) as [-> | Hne]; simpl.
  - rewrite <- !app_assoc. apply Permutation_app_head. apply Permutation_app_comm.
  - apply elem_of_cons in Hk as [-> | Hk]; [done |].
    rewrite (IH Hk). by rewrite app_assoc.
Qed.

(** The keys of a list that are the first with their value. *)
Lemma first_keys_snoc {K} `{EqDecision K} (ks : list K) k :
  omap (λ ik, if bool_decide (snd ik ∈ take (fst ik) (ks ++ [k]))
              then None else Some (snd ik)) (imap pair (ks ++ [k])) =
  omap (λ ik, if bool_decide (snd ik ∈ take (fst ik) ks)
              then None else Some (snd ik)) (imap pair ks) ++
  (if bool_decide (k ∈ ks) then [] else [k]).
Proof.
  rewrite imap_pair_snoc, omap_app. f_equal.
  - apply list_omap_ext, Forall2_same_length_lookup. split; [done |].
    intros i x y Hx Hy. rewrite Hx in Hy. injection Hy as <-.
    apply list_lookup_imap_Some in Hx as (w & Hw & ->). simpl.
    apply lookup_lt_Some in Hw. by rewrite take_app_le by lia.
  - simpl. rewrite take_app_length. by case_bool_decide.
Qed.

(** The members of a list whose key is [k], with [f] given the index. *)
Lemma members_snoc {K V} `{EqDecision K} (f : V → nat → K) (l : list V) v k :
  omap (λ iv, if decide (f (snd iv) (fst iv) = k) then Some (snd iv) else None)
    (imap pair (l ++ [v])) =
  omap (λ iv, if decide (f (snd iv) (fst iv) = k) then Some (snd iv) else None)
    (imap pair l) ++ (if decide (f v (length l) = k) then [v] else []).
Proof. rewrite imap_pair_snoc, omap_app. simpl. by destruct (decide _). Qed.

Lemma group_by_snoc {K V} `{EqDecision K} (l : list V) v (f : V → nat → K) :
  Base.group_by (l ++ [v]) f =
  match Base.Map_get (Base.group_by l f) (f v (length l)) with
  | None => Base.group_by l f ++ [(f v (length l), [v])]
  | Some _ =>
      Base.Map_alter (λ group, group ++ [v]) (f v (length l)) (Base.group_by l f)
  end.
Proof. unfold Base.group_by. by rewrite reduce_snoc. Qed.

Lemma group_by_key_elem {K V} `{EqDecision K} (l : list V) (f : V → nat → K) k :
  k ∈ map fst (Base.group_by l f) ↔ k ∈ imap (λ i v, f v i) l.
Proof.
  induction l as [|v l IH] using rev_ind; [done |].
  rewrite group_by_snoc, imap_app. simpl. rewrite Nat.add_0_r.
  rewrite elem_of_app, list_elem_of_singleton, <- IH.
  destruct (Base.Map_get (Base.group_by l f) (f v (length l))) as [g|] eqn:Hg.
  - rewrite Map_alter_keys. split; [by left |]. intros [Hk | ->]; [done |].
    apply dec_stable. intros Hn. apply Map_get_None in Hn. congruence.
  - rewrite map_app, elem_of_app. simpl. by rewrite list_elem_of_singleton.
Qed.

Lemma group_by_NoDup {K V} `{EqDecision K} (l : list V) (f : V → nat → K) :
  NoDup (map fst (Base.group_by l f)).
Proof.
  induction l as [|v l IH] using rev_ind; [constructor |].
  rewrite group_by_snoc.
  destruct (Base.Map_get (Base.group_by l f) (f v (length l))) as [g|] eqn:Hg.
  - by rewrite Map_alter_keys.
  - rewrite map_app. simpl. apply NoDup_app. split; [done |]. split.
    + intros k Hk ->%list_elem_of_singleton. by apply Map_get_None in Hg.
    + apply NoDup_singleton.
Qed.

Lemma group_by_keys {K V} `{EqDecision K} (l : list V) (f : V → nat → K) :
  map fst (Base.group_by l f) =
  omap (λ ik, if bool_decide (snd ik ∈ take (fst ik) (imap (λ i v, f v i) l))
              then None else Some (snd ik))
    (imap pair (imap (λ i v, f v i) l)).
Proof.
  induction l as [|v l IH] using rev_ind; [done |].
  rewrite group_by_snoc, imap_app. simpl. rewrite Nat.add_0_r.
  rewrite first_keys_snoc, <- IH.
  destruct (Base.Map_get (Base.group_by l f) (f v (length l))) as [g|] eqn:Hg.
  - rewrite Map_alter_keys.
    rewrite bool_decide_eq_true_2; [by rewrite app_nil_r |].
    apply group_by_key_elem. apply dec_stable. intros Hn.
    apply Map_get_None in Hn. congruence.
  - rewrite map_app. simpl. apply Map_get_None in Hg.
    by rewrite bool_decide_eq_false_2 by (by rewrite <- group_by_key_elem).
Qed.

Lemma group_by_get {K V} `{EqDecision K} (l : list V) (f : V → nat → K) k :
  Base.Map_get (Base.group_by l f) k =
  match omap (λ iv, if decide (f (snd iv) (fst iv) = k) then Some (snd iv) else None)
          (imap pair l) with
  | [] => None
  | g => Some g
  end.
Proof.
  induction l as [|v l IH] using rev_ind; [done |].
  rewrite group_by_snoc, members_snoc.
  set (members := omap _ (imap pair l)) in *. clearbody members.
  destruct (Base.Map_get (Base.group_by l f) (f v (length l))) as [g|] eqn:Hg.
  - rewrite Map_get_alter. destruct (decide (f v (length l) = k)) as [<- | Hne].
    + rewrite Hg in IH. rewrite Hg. destruct members as [|x m]; [done |].
      injection IH as ->. done.
    + by rewrite IH, app_nil_r.
  - rewrite Map_get_snoc. destruct (decide (f v (length l) = k)) as [<- | Hne].
    + rewrite Hg. rewrite Hg in IH. by destruct members.
    + rewrite app_nil_r. by destruct (Base.Map_get (Base.group_by l f) k).
Qed.

Lemma group_by_concat {K V} `{EqDecision K} (l : list V) (f : V → nat → K) :
  concat (map snd (Base.group_by l f)) ≡ₚ l.
Proof.
  induction l as [|v l IH] using rev_ind; [done |].
  rewrite group_by_snoc.
  destruct (Base.Map_get (Base.group_by l f) (f v (length l))) as [g|] eqn:Hg.
  - rewrite Map_alter_concat; [by rewrite IH |].
    apply dec_stable. intros Hn. apply Map_get_None in Hn. congruence.
  - rewrite map_app, concat_app. simpl. by rewrite IH.
Qed.

(** X16. [group_by] puts every element into the group of its key: the
    keys of the map are pairwise distinct and are the keys of the
    elements, each where it first occurs in the list; a group holds the
    elements with its key in the order of the list and is never empty,
    and the groups together hold every element once. *)
Theorem group_by_groups {K V} `{EqDecision K} (l : list V) (f : V → nat → K) :
  NoDup (map fst (Base.group_by l f)) ∧
  map fst (Base.group_by l f) =
    omap (λ ik, if bool_decide (snd ik ∈ take (fst ik) (imap (λ i v, f v i) l))
                then None else Some (snd ik))
      (imap pair (imap (λ i v, f v i) l)) ∧
  (∀ k g, (k, g) ∈ Base.group_by l f →
     g ≠ [] ∧
     g = omap (λ iv, if decide (f (snd iv) (fst iv) = k) then Some (snd iv) else None)
           (imap pair l)) ∧
  concat (map snd (Base.group_by l f)) ≡ₚ l.
Proof.
  pose proof (group_by_NoDup l f) as Hnd.
  split; [done |]. split; [apply group_by_keys |]. split; [| apply group_by_concat].
  intros k g Hin. apply (Map_get_elem_of _ _ _ Hnd) in Hin.
  rewrite group_by_get in Hin.
  destruct (omap _ (imap pair l)) as [|x m]; [done |]. by injection Hin as <-.
Qed.

(** *** once *)

Lemma once_calls_called f calls r :
  Base.once_calls f calls {| Base.called := true; Base.result := r |} =
  (map (λ _, Normal r) calls, {| Base.called := true; Base.result := r |}, 0).
Proof.
  induction calls as [|arguments rest IH]; [done |].
  simpl. by rewrite IH.
Qed.

(** X17. When the first call of [f] returns [r], the function [once(f)] returns
    [undefined] from that call and [r] from every later one, whatever the
    arguments of the later calls, and [f] is called once. *)
Theorem once_first_call_undefined f arguments rest r :
  f arguments = Normal r →
  Base.once_calls f (arguments :: rest) Base.once_init =
  (Normal VUndefined :: map (λ _, Normal r) rest,
   {| Base.called := true; Base.result := r |}, 1).
Proof.
  intros Hf. simpl. unfold Base.once_call. simpl. rewrite Hf.
  by rewrite once_calls_called.
Qed.

Lemma once_first_call_undefined_witness :
  Base.once_calls (λ arguments, Normal (VArr arguments))
    [[VNum 1]; [VNum 2]; []] Base.once_init =
  ([Normal VUndefined; Normal (VArr [VNum 1]); Normal (VArr [VNum 1])],
   {| Base.called := true; Base.result := VArr [VNum 1] |}, 1).
Proof.
  apply (once_first_call_undefined (λ arguments, Normal (VArr arguments))
           [VNum 1] [[VNum 2]; []] (VArr [VNum 1])).
  reflexivity.
Defined.

(** X18. A call of [f] that throws is not remembered: as long as [f] throws,
    every call of [once(f)] calls [f] again and throws what it threw. *)
Theorem once_throw_not_remembered f calls :
  Forall (λ arguments, ∃ e, f arguments = Throw e) calls →
  Base.once_calls f calls Base.once_init =
  (map f calls, Base.once_init, length calls).
Proof.
  induction 1 as [|arguments rest [e He] _ IH]; [done |].
  simpl. unfold Base.once_call. simpl. rewrite He, IH. done.
Qed.

Lemma once_throw_not_remembered_witness :
  Base.once_calls (λ arguments, Throw (VArr arguments))
    [[VNum 1]; [VNum 2]] Base.once_init =
  ([Throw (VArr [VNum 1]); Throw (VArr [VNum 2])], Base.once_init, 2).
Proof.
  apply (once_throw_not_remembered (λ arguments, Throw (VArr arguments))
           [[VNum 1]; [VNum 2]]).
  repeat constructor; by eexists.
Defined.

(** *** get_environment *)

(** X19. The environment is read once: a call that returns leaves its result in
    [cached_environment], and every later call returns it, whatever the
    variable [environment] holds by then. A call throws only with nothing
    cached, and caches nothing. *)
Theorem get_environment_cached P is_browser env cached_environment :
  match Base.get_environment P is_browser env cached_environment with
  | (Normal e, cached) =>
      cached = Some e ∧
      ∀ is_browser' env',
        Base.get_environment P is_browser' env' cached = (Normal e, cached)
  | (Throw _, cached) => cached_environment = None ∧ cached = None
  end.
Proof.
  unfold Base.get_environment.
  destruct cached_environment as [e|]; [done |].
  destruct is_browser; [done |].
  destruct (Base.Environment_of _); done.
Qed.

(** ** The shell-call harness: the checks and the order of the events *)

(** X20. With any number of arguments but one, [on_shell_call] throws
    [only one argument expected] before it decodes anything: none of the
    three functions is called, nothing is written, the process does not
    exit. The engine is taken to print the number of arguments and [1]
    differently. *)
Theorem on_shell_call_argument_count {B} P (f : Phases B) args :
  JSON_stringify P (VNum (Z.of_nat (length args))) (Some 2) ≠
    JSON_stringify P (VNum 1) (Some 2) →
  on_shell_call P args f [] =
  ([], Throw (VError (new_Error P "only one argument expected"))).
Proof.
  intros Hne. apply on_shell_call_throws.
  unfold shell_call_results, assert_equal, is_equal, stable_json_stringify.
  simpl. apply String.eqb_neq in Hne. by rewrite Hne.
Qed.

Lemma on_shell_call_argument_count_witness :
  on_shell_call sample_engine [render sample_payload; render sample_payload]
    (sample_phases false false) [] =
  ([], Throw (VError (new_Error sample_engine "only one argument expected"))).
Proof.
  apply (on_shell_call_argument_count sample_engine (sample_phases false false)
           [render sample_payload; render sample_payload]).
  vm_compute. discriminate.
Defined.

(** X21. When the argument is not JSON, [on_shell_call] throws what
    [JSON.parse] throws: none of the three functions is called, nothing is
    written, the process does not exit. *)
Theorem on_shell_call_parse_error {B} P (f : Phases B) s e :
  JSON_parse P s = Throw e →
  on_shell_call P [s] f [] = ([], Throw e).
Proof.
  intros Hparse. apply on_shell_call_throws.
  unfold shell_call_results. simpl length. simpl Z.of_nat.
  rewrite (assert_equal_same P (VNum 1)) by (by eexists).
  simpl default. rewrite Hparse. done.
Qed.

Lemma on_shell_call_parse_error_witness :
  on_shell_call sample_engine ["{"] (sample_phases false false) [] =
  ([], Throw (VError {| message := "Unexpected token"; stack := None |})).
Proof.
  apply (on_shell_call_parse_error sample_engine (sample_phases false false) "{").
  reflexivity.
Defined.



(** ** execute_async: the calls of [process] *)

Section pool_calls.
Context {T R : Type} (tasks : list T) (process : T → completion R).

(** One worker: the state while it awaits the call for task [j]. *)
Lemma run_one_worker sched fuel t st j tj m tm e :
  pool_promises st = [Pending j (process tj)] →
  pool_i st = S j →
  pool_invoked st = seq 0 (S j) →
  tasks !! j = Some tj →
  j ≤ m →
  tasks !! m = Some tm →
  process tm = Throw e →
  (∀ k x, j ≤ k < m → tasks !! k = Some x → ∃ r, process x = Normal r) →
  m - j < fuel →
  run tasks process sched fuel t st = Some (Settled (Throw e), seq 0 (S m)).
Proof.
  revert t st j tj. induction fuel as [|fuel IH];
    intros t st j tj Hps Hi Hinv Htj Hjm Htm He Hok Hfuel; [lia |].
  cbn [run]. rewrite Hps. cbn [await_all rejections omap pending_from length].
  change (omap _ []) with (@nil value).
  rewrite Nat.mod_1_r. cbn [lookup list_lookup].
  unfold settle. rewrite Hps. cbn [lookup list_lookup].
  destruct (decide (j = m)) as [-> | Hne].
  - assert (tj = tm) as -> by congruence. rewrite He.
    cbn [pool_promises pool_results pool_i pool_invoked insert list_insert].
    destruct fuel; cbn [run pool_promises pool_invoked await_all]; by rewrite Hinv.
  - destruct (Hok j tj) as [r Hr]; [lia | done |]. rewrite Hr.
    assert (Hnext : ∃ x, tasks !! S j = Some x).
    { apply lookup_lt_is_Some. apply lookup_lt_Some in Htm. lia. }
    destruct Hnext as [x Hx]. unfold worker.
    cbn [pool_promises pool_results pool_i pool_invoked]. rewrite Hi, Hx.
    cbn [pool_promises pool_results pool_i pool_invoked insert list_insert].
    apply (IH _ _ (S j) x); cbn [pool_promises pool_i pool_invoked]; try done.
    + rewrite Hinv. by rewrite <- seq_S.
    + lia.
    + intros k y Hk. apply Hok. lia.
    + lia.
Qed.

End pool_calls.

(** X23. For every number of workers, every order in which the calls settle
    and every [process], failing or not, the run comes to an end (the call
    returns or throws, or the process is ended by an unhandled rejection)
    and [process] has been called for the first [k] tasks, once each and
    in the order of the list; [k] is at least the number of workers (or of
    tasks, if there are fewer) and never more than the number of tasks. *)
Theorem execute_async_calls_in_order {T R} (tasks : list T)
    (process : T → completion R) (workers_count : nat) (sched : schedule) :
  ∃ o k,
    execute_async tasks process workers_count sched = Some (o, seq 0 k) ∧
    Nat.min workers_count (length tasks) ≤ k ≤ length tasks.
Proof.
  destruct (execute_async_finishes tasks process workers_count sched)
    as (st & Hinv & _ & Hmin & _ & Hrun).
  assert (Hfin : ∃ o, finish tasks st = Some (o, seq 0 (pool_i st))).
  { unfold finish. rewrite <- (inv_invoked _ _ _ Hinv).
    destruct (await_all (pool_promises st)) as [[u|e]|]; by eexists. }
  destruct Hfin as [o Hfin]. exists o, (pool_i st).
  split; [by rewrite Hrun |]. split; [done | apply (inv_i _ _ _ Hinv)].
Qed.

(** X24. With one worker the tasks are processed one after the other and the
    first call that throws ends the run: [execute_async] throws what that
    call threw, and [process] is not called for any later task. *)
Theorem execute_async_one_worker_stops {T R} (tasks : list T)
    (process : T → completion R) (sched : schedule) m tm e :
  tasks !! m = Some tm →
  process tm = Throw e →
  (∀ k x, k < m → tasks !! k = Some x → ∃ r, process x = Normal r) →
  execute_async tasks process 1 sched = Some (Settled (Throw e), seq 0 (S m)).
Proof.
  intros Htm He Hok.
  assert (Hfirst : ∃ x, tasks !! 0 = Some x).
  { apply lookup_lt_is_Some. apply lookup_lt_Some in Htm. lia. }
  destruct Hfirst as [x Hx].
  unfold execute_async. cbn [spawn]. unfold worker.
  cbn [pool_i pool_results pool_promises pool_invoked]. rewrite Hx.
  cbn [app pool_i pool_results pool_promises pool_invoked].
  apply (run_one_worker tasks process sched _ _ _ 0 x m tm e); try done.
  - lia.
  - intros k y Hk. apply Hok. lia.
  - apply lookup_lt_Some in Htm. lia.
Qed.

Lemma execute_async_one_worker_stops_witness :
  execute_async [1; 2; 3; 4; 5]%Z square_but_4 1 second_first =
  Some (Settled (Throw (VStr "four")), [0; 1; 2; 3]).
Proof.
  apply (execute_async_one_worker_stops [1; 2; 3; 4; 5]%Z square_but_4
           second_first 3 4%Z (VStr "four")).
  - reflexivity.
  - reflexivity.
  - intros [|[|[|k]]] x Hk; [| | | lia]; simpl; intros [= <-]; by eexists.
Defined.

(** X26. When [process] throws on a task, then for every number of workers
    [W >= 1] and every order in which the calls settle, no list of
    results is returned: the call throws what [process] threw on one of
    the tasks, or the process is ended by the rejection of workers the
    caller did not yet wait for, each of them with what [process] threw
    on one of the tasks. *)
Theorem execute_async_no_partial_result {T R} (tasks : list T)
    (process : T → completion R) (workers_count : nat) (sched : schedule) t e :
  1 ≤ workers_count →
  t ∈ tasks →
  process t = Throw e →
  ∃ invoked,
    (∃ e', execute_async tasks process workers_count sched =
             Some (Settled (Throw e'), invoked) ∧
           ∃ t', t' ∈ tasks ∧ process t' = Throw e') ∨
    (∃ rejected, execute_async tasks process workers_count sched =
                   Some (Unhandled_rejection rejected, invoked) ∧
                 rejected ≠ [] ∧
                 ∀ e', e' ∈ rejected → ∃ t', t' ∈ tasks ∧ process t' = Throw e').
Proof.
  intros HW Ht He.
  destruct (execute_async_finishes tasks process workers_count sched)
    as (st & Hinv & Hlen & _ & Hne & ->).
  exists (pool_invoked st). unfold finish.
  destruct (await_all (pool_promises st)) as [[u|e']|] eqn:Ha.
  - destruct (all_fulfilled_done tasks process st u Hinv) as [_ Hdone]; [lia | done |].
    apply list_elem_of_lookup_1 in Ht as [j Hj].
    destruct (Hdone j t Hj) as (r & Hr & _). congruence.
  - left. exists e'. split; [done |].
    apply await_all_Throw in Ha as [w Hw].
    apply (inv_rejected _ _ _ Hinv w e' Hw).
  - right. exists (rejections (pool_promises st)). split; [done |].
    split; [by apply Hne |]. intros e' [w Hw]%rejections_elem.
    apply (inv_rejected _ _ _ Hinv w e' Hw).
Qed.

Lemma execute_async_no_partial_result_witness :
  ∃ invoked,
    (∃ e', execute_async [1; 2; 3; 4; 5]%Z square_but_4 2 second_first =
             Some (Settled (Throw e'), invoked) ∧
           ∃ t', t' ∈ [1; 2; 3; 4; 5]%Z ∧ square_but_4 t' = Throw e') ∨
    (∃ rejected, execute_async [1; 2; 3; 4; 5]%Z square_but_4 2 second_first =
                   Some (Unhandled_rejection rejected, invoked) ∧
                 rejected ≠ [] ∧
                 ∀ e', e' ∈ rejected →
                   ∃ t', t' ∈ [1; 2; 3; 4; 5]%Z ∧ square_but_4 t' = Throw e').
Proof.
  apply (execute_async_no_partial_result [1; 2; 3; 4; 5]%Z square_but_4 2
           second_first 4%Z (VStr "four")).
  - lia.
  - apply (bool_decide_unpack _). vm_compute. exact I.
  - reflexivity.
Defined.
